(** * Cache cleanup (src/media/cleanup.ts): eviction engine and statistics

    The module scans a cache directory, deletes files older than a TTL,
    then deletes least-recently-accessed files while the cache is over its
    size limit, and reports what it did.  The development below embeds the
    module over an explicit model of the file system it talks to.

    Conventions of the embedding
    - A path is the list of its components; [join dir name] appends one
      component and [join dir ".."] drops the last one (what [path.join]
      computes after normalisation).  [path_str] renders a path for the
      messages of the report.
    - A JavaScript [number] holding a byte count, a counter or an epoch
      time in milliseconds is an integer of [Z].
    - The file system is a tree of nodes.  Every [fs/promises] call of the
      module is a function on that tree returning [option]: [None] is a
      rejected promise.  The module never runs two calls at once, so
      [await] is sequencing and the tree is threaded through the calls.
    - Whether [stat] or [unlink] succeeds on a file, and [readdir] on a
      directory, is a permission bit of the node: a call that was refused
      is refused again as long as the tree is the same.
    - [Date.now()] is the parameter [now] of the two entry points.

    The two formatting helpers of the module and the look-up functions of
    src/media/utils.ts are embedded as well; [String.prototype.toLowerCase]
    is a parameter of the latter. *)

From Stdlib Require Import List ZArith Bool Lia Ascii String Sorted Permutation.
From Stdlib Require Import QArith Qround Qabs DecimalString.
Import ListNotations.
Open Scope Z_scope.

(** ** Paths *)

Definition fpath := list string.

Definition join (dir : fpath) (name : string) : fpath := dir ++ [name].

(** [join(dir, "..")] *)
Definition parentDir (dir : fpath) : fpath := removelast dir.

Definition path_str (p : fpath) : string := String.concat "/" p.

Definition fpath_eqb (p q : fpath) : bool :=
  if list_eq_dec string_dec p q then true else false.

(** ** The file system *)

(** What [stat] reports about a regular file. *)
Record Stats := mkStats { st_size : Z; atimeMs : Z; mtimeMs : Z }.

(** A regular file carries its [Stats] and two permission bits: whether
    [stat] succeeds on it and whether [unlink] succeeds on it.  A directory
    carries whether [readdir] succeeds on it and its entries in listing
    order.  [Special] is anything else (symbolic link, socket, device): a
    [Dirent] that is neither [isFile()] nor [isDirectory()]. *)
#[local] Unset Elimination Schemes.
Inductive node :=
| File (st : Stats) (statable removable : bool)
| Dir (readable : bool) (entries : list (string * node))
| Special.
#[local] Set Elimination Schemes.

Definition entries_t := list (string * node).

Fixpoint assoc (name : string) (es : entries_t) : option node :=
  match es with
  | [] => None
  | (k, c) :: tl => if String.eqb k name then Some c else assoc name tl
  end.

Fixpoint remove_entry (name : string) (es : entries_t) : entries_t :=
  match es with
  | [] => []
  | (k, c) :: tl =>
      if String.eqb k name then tl else (k, c) :: remove_entry name tl
  end.

Fixpoint set_entry (name : string) (c' : node) (es : entries_t) : entries_t :=
  match es with
  | [] => []
  | (k, c) :: tl =>
      if String.eqb k name then (k, c') :: tl
      else (k, c) :: set_entry name c' tl
  end.

(** Path resolution from a node. *)
Fixpoint lookup (n : node) (p : fpath) : option node :=
  match p with
  | [] => Some n
  | name :: rest =>
      match n with
      | Dir _ es =>
          match assoc name es with
          | Some c => lookup c rest
          | None => None
          end
      | _ => None
      end
  end.

(** Removal of the entry a path names from its parent directory, when the
    node it names passes [ok]; shared by [unlink] and [rmdir].  The root of
    the tree has no parent and cannot be removed. *)
Fixpoint remove_at (ok : node -> bool) (n : node) (p : fpath) : option node :=
  match p with
  | [] => None
  | name :: rest =>
      match n with
      | Dir r es =>
          match assoc name es with
          | None => None
          | Some c =>
              match rest with
              | [] =>
                  if ok c then Some (Dir r (remove_entry name es)) else None
              | _ :: _ =>
                  match remove_at ok c rest with
                  | Some c' => Some (Dir r (set_entry name c' es))
                  | None => None
                  end
              end
          end
      | _ => None
      end
  end.

Definition unlinkable (c : node) : bool :=
  match c with
  | File _ _ removable => removable
  | Dir _ _ => false
  | Special => true
  end.

Definition removable_dir (c : node) : bool :=
  match c with
  | Dir _ [] => true
  | _ => false
  end.

(** [fs.unlink(path)] *)
Definition unlink (fs : node) (p : fpath) : option node :=
  remove_at unlinkable fs p.

(** [fs.rmdir(path)]: only an empty directory can be removed. *)
Definition rmdir (fs : node) (p : fpath) : option node :=
  remove_at removable_dir fs p.

(** [fs.readdir(dir)]: the names of the entries. *)
Definition readdir (fs : node) (dir : fpath) : option (list string) :=
  match lookup fs dir with
  | Some (Dir true es) => Some (map fst es)
  | _ => None
  end.

(** [fs.stat(path)] on a regular file. *)
Definition stat (c : node) : option Stats :=
  match c with
  | File st true _ => Some st
  | _ => None
  end.

Definition is_file (fs : node) (p : fpath) : bool :=
  match lookup fs p with
  | Some (File _ _ _) => true
  | _ => false
  end.

Definition is_dir (fs : node) (p : fpath) : bool :=
  match lookup fs p with
  | Some (Dir _ _) => true
  | _ => false
  end.

(** ** Data of the module *)

Record CleanupConfig := mkConfig {
  cacheDirectory : fpath;
  maxSizeBytes : Z;
  ttlMs : Z
}.

Record CachedFile := mkCachedFile {
  path : fpath;
  size : Z;
  accessTime : Z;
  modTime : Z
}.

Record CleanupResult := mkResult {
  filesDeleted : Z;
  bytesFreed : Z;
  expiredFiles : list fpath;
  lruFiles : list fpath;
  errors : list string
}.

(** ** getAllFiles *)

(** The body of [getAllFiles(dir)] once [readdir(dir, {withFileTypes})] has
    resolved [dir] to the node [n]: an unreadable directory, or anything
    that is not a directory, makes [readdir] throw and the [catch] returns
    the empty list.  A sub-directory entry is scanned recursively, a regular
    file is recorded when [stat] succeeds on it and skipped otherwise, any
    other entry is ignored. *)
Fixpoint walk (dir : fpath) (n : node) {struct n} : list CachedFile :=
  match n with
  | Dir true es =>
      flat_map
        (fun e : string * node =>
           match e with
           | (name, c) =>
               let fullPath := join dir name in
               match c with
               | Dir _ _ => walk fullPath c
               | File _ _ _ =>
                   match stat c with
                   | Some stats =>
                       [ {| path := fullPath;
                            size := st_size stats;
                            accessTime := atimeMs stats;
                            modTime := mtimeMs stats |} ]
                   | None => []
                   end
               | Special => []
               end
           end) es
  | _ => []
  end.

Definition getAllFiles (fs : node) (dir : fpath) : list CachedFile :=
  match lookup fs dir with
  | Some n => walk dir n
  | None => []
  end.

(** The same scan with every call resolved from the root of the file
    system, as the source makes them: [readdir(dir, {withFileTypes: true})]
    on the path, [getAllFiles(fullPath)] and [stat(fullPath)] on the joined
    path.  [getAllFiles_paths_enough] below shows that it computes
    [getAllFiles] once the counter exceeds the height of the tree. *)
Inductive DirentKind := IsFile | IsDirectory | IsOther.

Definition kindOf (c : node) : DirentKind :=
  match c with
  | File _ _ _ => IsFile
  | Dir _ _ => IsDirectory
  | Special => IsOther
  end.

Definition readdirWithFileTypes (fs : node) (dir : fpath)
  : option (list (string * DirentKind)) :=
  match lookup fs dir with
  | Some (Dir true es) => Some (map (fun e => (fst e, kindOf (snd e))) es)
  | _ => None
  end.

Definition statAt (fs : node) (p : fpath) : option Stats :=
  match lookup fs p with
  | Some c => stat c
  | None => None
  end.

Fixpoint getAllFiles_paths (fuel : nat) (fs : node) (dir : fpath)
  : list CachedFile :=
  match fuel with
  | O => []
  | S fuel' =>
      match readdirWithFileTypes fs dir with
      | Some entries =>
          flat_map
            (fun entry : string * DirentKind =>
               let fullPath := join dir (fst entry) in
               match snd entry with
               | IsDirectory => getAllFiles_paths fuel' fs fullPath
               | IsFile =>
                   match statAt fs fullPath with
                   | Some stats =>
                       [ {| path := fullPath;
                            size := st_size stats;
                            accessTime := atimeMs stats;
                            modTime := mtimeMs stats |} ]
                   | None => []
                   end
               | IsOther => []
               end) entries
      | None => []
      end
  end.

Fixpoint height (n : node) : nat :=
  match n with
  | Dir _ es => S (fold_right Nat.max O (map (fun e => height (snd e)) es))
  | _ => O
  end.

(** ** safeDelete *)

Definition safeDelete (fs : node) (filePath : fpath) : node * bool :=
  match unlink fs filePath with
  | Some fs' => (fs', true)
  | None => (fs, false)
  end.

(** ** cleanEmptyDirs *)

(** [cleanEmptyDirs(dir, rootDir)] calls itself on the parent of [dir] after
    it removed [dir].  Each call is on a shorter path ([rmdir] rejects the
    root of the file system, whose parent is itself), so the recursion is
    run on a counter that [cleanEmptyDirs] starts above the length of
    [dir]. *)
Fixpoint cleanEmptyDirs_from (fuel : nat) (dir rootDir : fpath) (fs : node)
  : node :=
  match fuel with
  | O => fs
  | S fuel' =>
      if fpath_eqb dir rootDir then fs
      else
        match readdir fs dir with
        | Some entries =>
            if (List.length entries =? 0)%nat then
              match rmdir fs dir with
              | Some fs' =>
                  let parentDir := parentDir dir in
                  cleanEmptyDirs_from fuel' parentDir rootDir fs'
              | None => fs
              end
            else fs
        | None => fs
        end
  end.

Definition cleanEmptyDirs (dir rootDir : fpath) (fs : node) : node :=
  cleanEmptyDirs_from (S (List.length dir)) dir rootDir fs.

(** ** runCleanup *)

Definition emptyResult : CleanupResult :=
  {| filesDeleted := 0; bytesFreed := 0;
     expiredFiles := []; lruFiles := []; errors := [] |}.

Definition expiredError (file : CachedFile) : string :=
  ("Failed to delete expired file: " ++ path_str (path file))%string.

Definition lruError (file : CachedFile) : string :=
  ("Failed to delete LRU file: " ++ path_str (path file))%string.

(** The three updates of the report made in the loops. *)
Definition recordExpired (result : CleanupResult) (file : CachedFile) :=
  {| filesDeleted := filesDeleted result + 1;
     bytesFreed := bytesFreed result + size file;
     expiredFiles := expiredFiles result ++ [path file];
     lruFiles := lruFiles result;
     errors := errors result |}.

Definition recordLru (result : CleanupResult) (file : CachedFile) :=
  {| filesDeleted := filesDeleted result + 1;
     bytesFreed := bytesFreed result + size file;
     expiredFiles := expiredFiles result;
     lruFiles := lruFiles result ++ [path file];
     errors := errors result |}.

Definition recordError (result : CleanupResult) (msg : string) :=
  {| filesDeleted := filesDeleted result;
     bytesFreed := bytesFreed result;
     expiredFiles := expiredFiles result;
     lruFiles := lruFiles result;
     errors := errors result ++ [msg] |}.

(** Step 1, the loop over [files]: the state is the file system, the
    report and [remainingFiles]. *)
Fixpoint ttlLoop (config : CleanupConfig) (now : Z) (files : list CachedFile)
    (fs : node) (result : CleanupResult) (remainingFiles : list CachedFile)
  : node * CleanupResult * list CachedFile :=
  match files with
  | [] => (fs, result, remainingFiles)
  | file :: rest =>
      let age := now - modTime file in
      if age >? ttlMs config then
        let '(fs', deleted) := safeDelete fs (path file) in
        if deleted then
          ttlLoop config now rest fs' (recordExpired result file)
            remainingFiles
        else
          ttlLoop config now rest fs'
            (recordError result (expiredError file)) remainingFiles
      else
        ttlLoop config now rest fs result (remainingFiles ++ [file])
  end.

(** [remainingFiles.reduce((sum, f) => sum + f.size, 0)] *)
Definition totalSize (files : list CachedFile) : Z :=
  fold_left (fun sum f => sum + size f) files 0.

(** [remainingFiles.sort((a, b) => a.accessTime - b.accessTime)].
    [Array.prototype.sort] is stable and the comparator is a total preorder
    on the access times, which fixes the result: the files in ascending
    access time, files of equal access time in their order in the input.
    Insertion from the right computes that list. *)
Fixpoint insertByAccess (a : CachedFile) (l : list CachedFile)
  : list CachedFile :=
  match l with
  | [] => [a]
  | b :: tl =>
      if accessTime a - accessTime b <=? 0 then a :: l
      else b :: insertByAccess a tl
  end.

Fixpoint sortByAccess (l : list CachedFile) : list CachedFile :=
  match l with
  | [] => []
  | a :: tl => insertByAccess a (sortByAccess tl)
  end.

(** Step 2, the loop over the sorted [remainingFiles], with its [break]. *)
Fixpoint lruLoop (config : CleanupConfig) (files : list CachedFile)
    (fs : node) (result : CleanupResult) (currentSize : Z)
  : node * CleanupResult :=
  match files with
  | [] => (fs, result)
  | file :: rest =>
      if currentSize <=? maxSizeBytes config then (fs, result)
      else
        let '(fs', deleted) := safeDelete fs (path file) in
        if deleted then
          lruLoop config rest fs' (recordLru result file)
            (currentSize - size file)
        else
          lruLoop config rest fs' (recordError result (lruError file))
            currentSize
  end.

(** [runCleanup(config)], with [now] the value [Date.now()] returns. *)
Definition runCleanup (config : CleanupConfig) (now : Z) (fs : node)
  : node * CleanupResult :=
  let result := emptyResult in
  let files := getAllFiles fs (cacheDirectory config) in
  if (List.length files =? 0)%nat then (fs, result)
  else
    let '(fs1, result1, remainingFiles) :=
      ttlLoop config now files fs result [] in
    let currentSize := totalSize remainingFiles in
    let '(fs2, result2) :=
      if currentSize >? maxSizeBytes config then
        lruLoop config (sortByAccess remainingFiles) fs1 result1 currentSize
      else (fs1, result1) in
    let fs3 :=
      cleanEmptyDirs (cacheDirectory config) (cacheDirectory config) fs2 in
    (fs3, result2).

(** ** getCacheStats *)

Record FileAge := mkFileAge { fa_path : fpath; fa_age : Z }.

Record CacheStats := mkCacheStats {
  totalFiles : Z;
  totalSizeBytes : Z;
  totalSizeGb : Q;
  oldestFile : option FileAge;
  newestFile : option FileAge
}.

(** The loop that finds the oldest and the newest file; [oldest] and
    [newest] start at [files[0]]. *)
Fixpoint extremesLoop (files : list CachedFile) (oldest newest : CachedFile)
  : CachedFile * CachedFile :=
  match files with
  | [] => (oldest, newest)
  | file :: rest =>
      let oldest' := if modTime file <? modTime oldest then file else oldest in
      let newest' := if modTime file >? modTime newest then file else newest in
      extremesLoop rest oldest' newest'
  end.

(** [Math.round(x * 100) / 100] on [x = totalSizeBytes / 2^30], computed on
    rationals: [Math.round] rounds half up. *)
Definition roundGb (bytes : Z) : Q :=
  (inject_Z (Qfloor (inject_Z bytes / inject_Z (1024 * 1024 * 1024)
                     * inject_Z 100 + (1 # 2))) / inject_Z 100)%Q.

Definition getCacheStats (now : Z) (fs : node) (cacheDirectory : fpath)
  : CacheStats :=
  let files := getAllFiles fs cacheDirectory in
  match files with
  | [] =>
      {| totalFiles := 0; totalSizeBytes := 0; totalSizeGb := 0%Q;
         oldestFile := None; newestFile := None |}
  | first :: _ =>
      let totalSizeBytes := totalSize files in
      let '(oldest, newest) := extremesLoop files first first in
      {| totalFiles := Z.of_nat (List.length files);
         totalSizeBytes := totalSizeBytes;
         totalSizeGb := roundGb totalSizeBytes;
         oldestFile :=
           Some {| fa_path := path oldest; fa_age := now - modTime oldest |};
         newestFile :=
           Some {| fa_path := path newest; fa_age := now - modTime newest |} |}
  end.

(** ** formatBytes and formatDuration *)

(** [String(n)] for a whole number [n]: its decimal digits, after a minus
    sign when it is negative. *)
Definition numberToString (z : Z) : string :=
  NilZero.string_of_int (Z.to_int z).






(** [formatDuration(ms)] for a whole number of milliseconds:
    [Math.floor(a / b)] is the quotient rounded down and [a % b] the
    remainder with the sign of [a]. *)
Definition formatDuration (ms : Z) : string :=
  let seconds := ms / 1000 in
  let minutes := seconds / 60 in
  let hours := minutes / 60 in
  let days := hours / 24 in
  if days >? 0 then
    (numberToString days ++ " day" ++ (if days >? 1 then "s" else "")
     ++ ", " ++ numberToString (Z.rem hours 24) ++ " hour"
     ++ (if negb (Z.eqb (Z.rem hours 24) 1) then "s" else ""))%string
  else if hours >? 0 then
    (numberToString hours ++ " hour" ++ (if hours >? 1 then "s" else "")
     ++ ", " ++ numberToString (Z.rem minutes 60) ++ " minute"
     ++ (if negb (Z.eqb (Z.rem minutes 60) 1) then "s" else ""))%string
  else if minutes >? 0 then
    (numberToString minutes ++ " minute"
     ++ (if minutes >? 1 then "s" else ""))%string
  else
    (numberToString seconds ++ " second"
     ++ (if negb (Z.eqb seconds 1) then "s" else ""))%string.

(** ** Media utilities (src/media/utils.ts) *)

Inductive MediaType := Video | Audio | Image | Gif | Document | Other.

Definition EXTENSION_TO_TYPE : list (string * MediaType) :=
    [(".mp4"%string, Video);
     (".mkv"%string, Video);
     (".avi"%string, Video);
     (".mov"%string, Video);
     (".wmv"%string, Video);
     (".flv"%string, Video);
     (".webm"%string, Video);
     (".m4v"%string, Video);
     (".mpeg"%string, Video);
     (".mpg"%string, Video);
     (".3gp"%string, Video);
     (".ts"%string, Video);
     (".mts"%string, Video);
     (".mp3"%string, Audio);
     (".wav"%string, Audio);
     (".flac"%string, Audio);
     (".aac"%string, Audio);
     (".ogg"%string, Audio);
     (".m4a"%string, Audio);
     (".wma"%string, Audio);
     (".opus"%string, Audio);
     (".jpg"%string, Image);
     (".jpeg"%string, Image);
     (".png"%string, Image);
     (".webp"%string, Image);
     (".bmp"%string, Image);
     (".svg"%string, Image);
     (".tiff"%string, Image);
     (".ico"%string, Image);
     (".gif"%string, Gif);
     (".pdf"%string, Document);
     (".doc"%string, Document);
     (".docx"%string, Document);
     (".epub"%string, Document);
     (".mobi"%string, Document)].

Definition MIME_TYPES : list (string * string) :=
    [(".mp4", "video/mp4");
     (".mkv", "video/x-matroska");
     (".avi", "video/x-msvideo");
     (".mov", "video/quicktime");
     (".wmv", "video/x-ms-wmv");
     (".flv", "video/x-flv");
     (".webm", "video/webm");
     (".m4v", "video/x-m4v");
     (".mpeg", "video/mpeg");
     (".mpg", "video/mpeg");
     (".3gp", "video/3gpp");
     (".ts", "video/mp2t");
     (".mts", "video/mp2t");
     (".mp3", "audio/mpeg");
     (".wav", "audio/wav");
     (".flac", "audio/flac");
     (".aac", "audio/aac");
     (".ogg", "audio/ogg");
     (".m4a", "audio/mp4");
     (".wma", "audio/x-ms-wma");
     (".opus", "audio/opus");
     (".jpg", "image/jpeg");
     (".jpeg", "image/jpeg");
     (".png", "image/png");
     (".webp", "image/webp");
     (".bmp", "image/bmp");
     (".svg", "image/svg+xml");
     (".tiff", "image/tiff");
     (".ico", "image/x-icon");
     (".gif", "image/gif");
     (".pdf", "application/pdf");
     (".doc", "application/msword");
     (".docx",
      "application/vnd.openxmlformats-officedocument.wordprocessingml.document");
     (".epub", "application/epub+zip");
     (".mobi", "application/x-mobipocket-ebook")]%string.

(** [Object.keys(EXTENSION_TO_TYPE)] *)
Definition SUPPORTED_EXTENSIONS : list string := map fst EXTENSION_TO_TYPE.

(** [table[key]] on an object literal: the value of the own property
    [key], if any.  Every key the functions below look up starts with a
    dot, so no inherited property is ever found. *)
Fixpoint property {V : Type} (table : list (string * V)) (key : string)
  : option V :=
  match table with
  | [] => None
  | (k, v) :: tl => if String.eqb k key then Some v else property tl key
  end.

(** [s.startsWith(".")] *)
Definition startsWithDot (s : string) : bool := String.prefix "." s.

(** The three lookups.  [toLowerCase] is [String.prototype.toLowerCase],
    a parameter of the embedding. *)
Definition getMediaType (toLowerCase : string -> string) (extension : string)
  : MediaType :=
  let ext :=
    if startsWithDot (toLowerCase extension) then toLowerCase extension
    else ("." ++ toLowerCase extension)%string in
  match property EXTENSION_TO_TYPE ext with
  | Some t => t
  | None => Other
  end.

(** [MIME_TYPES[ext] || "application/octet-stream"]: an empty string is
    falsy as well. *)
Definition getMimeType (toLowerCase : string -> string) (extension : string)
  : string :=
  let ext :=
    if startsWithDot (toLowerCase extension) then toLowerCase extension
    else ("." ++ toLowerCase extension)%string in
  match property MIME_TYPES ext with
  | Some m => if String.eqb m "" then "application/octet-stream" else m
  | None => "application/octet-stream"
  end%string.

(** [ext in EXTENSION_TO_TYPE] *)
Definition isSupportedExtension (toLowerCase : string -> string)
    (extension : string) : bool :=
  let ext :=
    if startsWithDot (toLowerCase extension) then toLowerCase extension
    else ("." ++ toLowerCase extension)%string in
  match property EXTENSION_TO_TYPE ext with
  | Some _ => true
  | None => false
  end.

(** [s.lastIndexOf(".")]: the index of the last dot, [-1] without one. *)
Fixpoint lastIndexOfDot (s : string) : Z :=
  match s with
  | EmptyString => -1
  | String a s' =>
      let r := lastIndexOfDot s' in
      if 0 <=? r then r + 1
      else if Ascii.eqb a "."%char then 0 else -1
  end.

(** [s.slice(start)] and [s.slice(0, end)] for indices within [s]. *)
Definition sliceFrom (start : Z) (s : string) : string :=
  String.substring (Z.to_nat start) (String.length s - Z.to_nat start) s.

Definition sliceTo (stop : Z) (s : string) : string :=
  String.substring 0 (Z.to_nat stop) s.

Definition getExtension (toLowerCase : string -> string) (filename : string)
  : string :=
  let lastDot := lastIndexOfDot filename in
  if lastDot =? -1 then ""%string
  else toLowerCase (sliceFrom lastDot filename).

Definition getBasename (filename : string) : string :=
  let lastDot := lastIndexOfDot filename in
  if lastDot =? -1 then filename else sliceTo lastDot filename.

(** ** Well-formed file systems *)

(** The names of a directory are pairwise distinct and no file has a
    negative size, in every directory of the tree. *)
Fixpoint nodupb (l : list string) : bool :=
  match l with
  | [] => true
  | x :: tl => negb (existsb (String.eqb x) tl) && nodupb tl
  end.

Fixpoint wfb (n : node) : bool :=
  match n with
  | File st _ _ => 0 <=? st_size st
  | Dir _ es =>
      nodupb (map fst es) && forallb (fun e => wfb (snd e)) es
  | Special => true
  end.

(** * Vocabulary of the specification *)

(** Whether [unlink] succeeds on a path. *)
Definition deletable (fs : node) (p : fpath) : bool :=
  match unlink fs p with
  | Some _ => true
  | None => false
  end.

(** What one directory entry contributes to the scan of its directory. *)
Definition entryFiles (dir : fpath) (e : string * node) : list CachedFile :=
  let fullPath := join dir (fst e) in
  match snd e with
  | Dir _ _ => walk fullPath (snd e)
  | File _ _ _ =>
      match stat (snd e) with
      | Some stats =>
          [ {| path := fullPath; size := st_size stats;
               accessTime := atimeMs stats; modTime := mtimeMs stats |} ]
      | None => []
      end
  | Special => []
  end.

Definition notPath (p : fpath) (g : CachedFile) : bool :=
  negb (fpath_eqb (path g) p).

(** [expired config now f]: the test [age > config.ttlMs] of step 1. *)
Definition expired (config : CleanupConfig) (now : Z) (f : CachedFile) : bool :=
  now - modTime f >? ttlMs config.

(** The scan without the files of the given paths. *)
Fixpoint removePaths (ps : list fpath) (T : list CachedFile)
  : list CachedFile :=
  match ps with
  | [] => T
  | p :: ps' => removePaths ps' (filter (notPath p) T)
  end.

(** The files the loop of step 2 calls [safeDelete] on: those it reaches
    before the running size is within the limit.  [d] tells which
    deletions succeed. *)
Fixpoint lruAttempts (d : fpath -> bool) (max : Z) (files : list CachedFile)
    (currentSize : Z) : list CachedFile :=
  match files with
  | [] => []
  | f :: rest =>
      if currentSize <=? max then []
      else
        f :: lruAttempts d max rest
               (if d (path f) then currentSize - size f else currentSize)
  end.

(** A report extended by deleted files [D] and failed deletions [F]. *)
Definition addExpired (r : CleanupResult) (D F : list CachedFile) :=
  {| filesDeleted := filesDeleted r + Z.of_nat (List.length D);
     bytesFreed := bytesFreed r + totalSize D;
     expiredFiles := expiredFiles r ++ map path D;
     lruFiles := lruFiles r;
     errors := errors r ++ map expiredError F |}.

Definition addLru (r : CleanupResult) (D F : list CachedFile) :=
  {| filesDeleted := filesDeleted r + Z.of_nat (List.length D);
     bytesFreed := bytesFreed r + totalSize D;
     expiredFiles := expiredFiles r;
     lruFiles := lruFiles r ++ map path D;
     errors := errors r ++ map lruError F |}.

(** The state of the file system between two deletions of a run on the
    cache [root]: it is well formed, its scan is [T], and [d] still tells
    which files of [T] [unlink] accepts. *)
Record Inv (root : fpath) (d : fpath -> bool) (fs : node)
    (T : list CachedFile) : Prop := {
  inv_wf : wfb fs = true;
  inv_scan : getAllFiles fs root = T;
  inv_del : forall f, In f T -> deletable fs (path f) = d (path f)
}.

(** The expired files step 1 deletes, those it fails on, and the files it
    keeps, when [d] tells which deletions succeed. *)
Definition ttlDeleted (config : CleanupConfig) (now : Z) (d : fpath -> bool)
    (files : list CachedFile) : list CachedFile :=
  filter (fun f => expired config now f && d (path f)) files.

Definition ttlFailed (config : CleanupConfig) (now : Z) (d : fpath -> bool)
    (files : list CachedFile) : list CachedFile :=
  filter (fun f => expired config now f && negb (d (path f))) files.

Definition ttlSurvivors (config : CleanupConfig) (now : Z)
    (files : list CachedFile) : list CachedFile :=
  filter (fun f => negb (expired config now f)) files.

(** The files step 2 deletes and those it fails on. *)
Definition lruDeleted (config : CleanupConfig) (d : fpath -> bool)
    (files : list CachedFile) (cur : Z) : list CachedFile :=
  filter (fun f => d (path f))
    (lruAttempts d (maxSizeBytes config) files cur).

Definition lruFailed (config : CleanupConfig) (d : fpath -> bool)
    (files : list CachedFile) (cur : Z) : list CachedFile :=
  filter (fun f => negb (d (path f)))
    (lruAttempts d (maxSizeBytes config) files cur).

Definition accessLe (a b : CachedFile) : Prop := accessTime a <= accessTime b.

Definition cleaned (config : CleanupConfig) (now : Z) (fs : node) : node :=
  fst (runCleanup config now fs).

Definition report (config : CleanupConfig) (now : Z) (fs : node)
  : CleanupResult :=
  snd (runCleanup config now fs).

(** The inventory [files] of a run. *)
Definition inventory (config : CleanupConfig) (fs : node) : list CachedFile :=
  getAllFiles fs (cacheDirectory config).

(** The file system and [remainingFiles] when step 1 is over. *)
Definition afterTtl (config : CleanupConfig) (now : Z) (fs : node) : node :=
  fst (fst (ttlLoop config now (inventory config fs) fs emptyResult [])).

Definition remainingAfterTtl (config : CleanupConfig) (now : Z) (fs : node)
  : list CachedFile :=
  snd (ttlLoop config now (inventory config fs) fs emptyResult []).

(** The files step 2 calls [safeDelete] on. *)
Definition attempts (config : CleanupConfig) (now : Z) (fs : node)
  : list CachedFile :=
  let S := ttlSurvivors config now (inventory config fs) in
  lruAttempts (deletable fs) (maxSizeBytes config) (sortByAccess S)
    (totalSize S).

(** The size the inventory records for a path (0 when it has none). *)
Definition recordedSize (files : list CachedFile) (p : fpath) : Z :=
  match find (fun f => fpath_eqb (path f) p) files with
  | Some f => size f
  | None => 0
  end.

Definition sumZ (l : list Z) : Z := fold_right Z.add 0 l.

(** [o] is the first file of [l] with the least modification time. *)
Definition firstOldest (l : list CachedFile) (o : CachedFile) : Prop :=
  exists l1 l2,
    l = l1 ++ o :: l2 /\
    (forall g, In g l1 -> modTime o < modTime g) /\
    (forall g, In g l2 -> modTime o <= modTime g).

(** [n] is the first file of [l] with the greatest modification time. *)
Definition firstNewest (l : list CachedFile) (n : CachedFile) : Prop :=
  exists l1 l2,
    l = l1 ++ n :: l2 /\
    (forall g, In g l1 -> modTime g < modTime n) /\
    (forall g, In g l2 -> modTime g <= modTime n).

(** The top-level MIME type that goes with a media type. *)
Definition mimeFamily (t : MediaType) : string :=
  match t with
  | Video => "video/"
  | Audio => "audio/"
  | Image | Gif => "image/"
  | Document => "application/"
  | Other => ""
  end%string.

(** [s] has no dot. *)
Definition noDot (s : string) : Prop :=
  forall n, String.get n s <> Some "."%char.

(** A node without what it contains: a file as it is, a directory with
    only its permission bit. *)
Definition shallow (o : option node) : option node :=
  match o with
  | Some (Dir r _) => Some (Dir r [])
  | _ => o
  end.

(** [reachable n rel]: from [n], the path [rel] goes down through readable
    directories only and ends on a regular file [stat] accepts. *)
Fixpoint reachable (n : node) (rel : fpath) : bool :=
  match rel with
  | [] =>
      match n with
      | File _ true _ => true
      | _ => false
      end
  | x :: rest =>
      match n with
      | Dir true es =>
          match assoc x es with
          | Some c => reachable c rest
          | None => false
          end
      | _ => false
      end
  end.

(** The record the scan makes of the file at [p] with the stats [st]. *)
Definition recordOf (p : fpath) (st : Stats) : CachedFile :=
  {| path := p; size := st_size st;
     accessTime := atimeMs st; modTime := mtimeMs st |}.

(** * Sample caches *)

Module Sample.

Definition hour : Z := 3600000.

Definition now : Z := 1000 * hour.

(** A file of [sz] bytes, modified [ageH] hours and read [accH] hours
    before [now]. *)
Definition file (sz ageH accH : Z) (removable : bool) : node :=
  File {| st_size := sz; atimeMs := now - accH * hour;
          mtimeMs := now - ageH * hour |} true removable.

Definition record (p : fpath) (sz ageH accH : Z) : CachedFile :=
  {| path := p; size := sz; accessTime := now - accH * hour;
     modTime := now - ageH * hour |}.

Definition root : fpath := ["var"; "cache"]%string.

Definition mkfs (cache : entries_t) : node :=
  Dir true
    [("etc", Dir true [("localtime", Special)]);
     ("var", Dir true [("cache", Dir true cache)])]%string.

(** A expired, B fresh. *)
Definition fsAB : node :=
  mkfs [("A", file 100 48 1 true); ("B", file 100 1 1 true)]%string.

Definition policyAB : CleanupConfig := mkConfig root 1000 (24 * hour).

(** Nothing expired, 300 bytes against a limit of 150; read last in the
    order C, A, B. *)
Definition fsCAB : node :=
  mkfs [("A", file 100 1 5 true);
        ("sub", Dir true [("B", file 100 1 2 true)]);
        ("C", file 100 1 9 true)]%string.

Definition policyCAB : CleanupConfig := mkConfig root 150 (2400 * hour).

(** As [fsCAB], with an expired file and [A] that [unlink] refuses. *)
Definition fsLocked : node :=
  mkfs [("old", file 100 48 1 false);
        ("A", file 100 1 5 false);
        ("sub", Dir true [("B", file 100 1 2 true)]);
        ("C", file 100 1 9 true)]%string.

Definition policyLocked : CleanupConfig := mkConfig root 150 (24 * hour).

(** A fresh file of no byte, alone and next to a file of 100 bytes. *)
Definition fsEmptyFile : node := mkfs [("empty", file 0 1 1 true)]%string.

Definition fsEmptyAndBig : node :=
  mkfs [("empty", file 0 1 1 true); ("big", file 100 1 3 true)]%string.

Definition policyZero : CleanupConfig := mkConfig root 0 (24 * hour).

(** An expired file alone in a sub-directory of the cache. *)
Definition fsSub : node :=
  mkfs [("sub", Dir true [("old", file 100 48 1 true)])]%string.

Definition sub : fpath := ["var"; "cache"; "sub"]%string.

(** No cache directory yet. *)
Definition fsNoCache : node := Dir true [("var", Dir true [])]%string.

(** A policy that [fsCAB] satisfies. *)
Definition policyLoose : CleanupConfig := mkConfig root 1000 (2400 * hour).

(** An empty sub-directory next to a file, and an empty directory alone
    in a sub-directory. *)
Definition fsEmptySub : node :=
  mkfs [("sub", Dir true []); ("keep", file 100 1 1 true)]%string.



End Sample.

(** * Properties of the file-system model *)

(** Induction on a tree, with the hypothesis for every entry of a
    directory. *)
Section NodeInduction.

Variable P : node -> Prop.
Hypothesis HFile : forall st s r, P (File st s r).
Hypothesis HDir :
  forall r es, Forall (fun e => P (snd e)) es -> P (Dir r es).
Hypothesis HSpecial : P Special.

Fixpoint node_ind (n : node) : P n :=
  match n with
  | File st s r => HFile st s r
  | Dir r es =>
      HDir r es
        ((fix all (l : entries_t) : Forall (fun e => P (snd e)) l :=
            match l with
            | [] => Forall_nil _
            | (k, c) :: tl =>
                Forall_cons (P := fun e => P (snd e)) (k, c) (node_ind c)
                  (all tl)
            end) es)
  | Special => HSpecial
  end.

End NodeInduction.

Lemma fpath_eqb_eq (p q : fpath) : fpath_eqb p q = true <-> p = q.
Proof.
  unfold fpath_eqb. destruct (list_eq_dec string_dec p q); split; congruence.
Qed.

Lemma fpath_eqb_refl (p : fpath) : fpath_eqb p p = true.
Proof. now apply fpath_eqb_eq. Qed.

Lemma fpath_eqb_neq (p q : fpath) : fpath_eqb p q = false <-> p <> q.
Proof.
  unfold fpath_eqb. destruct (list_eq_dec string_dec p q); split; congruence.
Qed.

(** *** Entries of a directory *)

Lemma nodupb_notin (x : string) (l : list string) :
  existsb (String.eqb x) l = false -> ~ In x l.
Proof.
  intros H Hin.
  assert (existsb (String.eqb x) l = true) as E.
  { apply existsb_exists. exists x. split; [assumption | apply String.eqb_refl]. }
  congruence.
Qed.

Lemma nodupb_NoDup (l : list string) : nodupb l = true -> NoDup l.
Proof.
  induction l as [|x l IH]; simpl; intros H.
  - constructor.
  - apply andb_prop in H. destruct H as [H1 H2].
    constructor.
    + apply nodupb_notin. now apply negb_true_iff.
    + now apply IH.
Qed.

Lemma assoc_not_in (name : string) (es : entries_t) :
  ~ In name (map fst es) -> assoc name es = None.
Proof.
  induction es as [|[k c] tl IH]; simpl; intros H.
  - reflexivity.
  - destruct (String.eqb_spec k name) as [E|E].
    + exfalso. apply H. now left.
    + apply IH. intros Hin. apply H. now right.
Qed.

Lemma assoc_in (name : string) (c : node) (es : entries_t) :
  NoDup (map fst es) -> In (name, c) es -> assoc name es = Some c.
Proof.
  induction es as [|[k c0] tl IH]; simpl; intros Hnd Hin.
  - contradiction.
  - inversion Hnd as [|? ? Hk Htl]; subst.
    destruct Hin as [Hin|Hin].
    + inversion Hin; subst. now rewrite String.eqb_refl.
    + destruct (String.eqb_spec k name) as [E|E].
      * subst. exfalso. apply Hk.
        change name with (fst (name, c)). now apply in_map.
      * now apply IH.
Qed.

Lemma assoc_Some_in (name : string) (c : node) (es : entries_t) :
  assoc name es = Some c -> In (name, c) es.
Proof.
  induction es as [|[k c0] tl IH]; simpl; intros H.
  - discriminate.
  - destruct (String.eqb_spec k name) as [E|E].
    + inversion H; subst. now left.
    + right. now apply IH.
Qed.

Lemma assoc_remove_other (k name : string) (es : entries_t) :
  k <> name -> assoc k (remove_entry name es) = assoc k es.
Proof.
  intros Hne. induction es as [|[k0 c0] tl IH]; simpl.
  - reflexivity.
  - destruct (String.eqb_spec k0 name) as [E|E]; simpl.
    + subst. destruct (String.eqb_spec name k); congruence.
    + now rewrite IH.
Qed.

Lemma assoc_remove_same (name : string) (es : entries_t) :
  NoDup (map fst es) -> assoc name (remove_entry name es) = None.
Proof.
  induction es as [|[k0 c0] tl IH]; simpl; intros Hnd.
  - reflexivity.
  - inversion Hnd as [|? ? Hk Htl]; subst.
    destruct (String.eqb_spec k0 name) as [E|E]; simpl.
    + subst. now apply assoc_not_in.
    + destruct (String.eqb_spec k0 name); [congruence|]. now apply IH.
Qed.

Lemma assoc_set_other (k name : string) (c' : node) (es : entries_t) :
  k <> name -> assoc k (set_entry name c' es) = assoc k es.
Proof.
  intros Hne. induction es as [|[k0 c0] tl IH]; simpl.
  - reflexivity.
  - destruct (String.eqb_spec k0 name) as [E|E]; simpl.
    + subst. destruct (String.eqb_spec name k); congruence.
    + now rewrite IH.
Qed.

Lemma assoc_set_same (name : string) (c c' : node) (es : entries_t) :
  assoc name es = Some c -> assoc name (set_entry name c' es) = Some c'.
Proof.
  induction es as [|[k0 c0] tl IH]; simpl; intros H.
  - discriminate.
  - destruct (String.eqb_spec k0 name) as [E|E]; simpl.
    + subst. now rewrite String.eqb_refl.
    + destruct (String.eqb_spec k0 name); [congruence|]. now apply IH.
Qed.

Lemma map_fst_set_entry (name : string) (c' : node) (es : entries_t) :
  map fst (set_entry name c' es) = map fst es.
Proof.
  induction es as [|[k0 c0] tl IH]; simpl.
  - reflexivity.
  - destruct (String.eqb k0 name); simpl; congruence.
Qed.

Lemma nodupb_remove_entry (name : string) (es : entries_t) :
  nodupb (map fst es) = true -> nodupb (map fst (remove_entry name es)) = true.
Proof.
  induction es as [|[k0 c0] tl IH]; simpl; intros H.
  - reflexivity.
  - apply andb_prop in H. destruct H as [H1 H2].
    destruct (String.eqb k0 name); simpl.
    + assumption.
    + rewrite IH by assumption. rewrite andb_true_r.
      apply negb_true_iff. apply negb_true_iff in H1.
      destruct (existsb (String.eqb k0) (map fst (remove_entry name tl))) eqn:E;
        [|reflexivity].
      apply existsb_exists in E. destruct E as [x [Hx Hx']].
      assert (existsb (String.eqb k0) (map fst tl) = true) as E'.
      { apply existsb_exists. exists x. split; [|assumption].
        clear - Hx. induction tl as [|[k1 c1] tl IH]; simpl in *.
        - assumption.
        - destruct (String.eqb k1 name); simpl in *.
          + now right.
          + destruct Hx as [Hx|Hx]; [now left | right; now apply IH]. }
      congruence.
Qed.

Lemma forallb_remove_entry (f : string * node -> bool) name es :
  forallb f es = true -> forallb f (remove_entry name es) = true.
Proof.
  induction es as [|[k0 c0] tl IH]; simpl; intros H.
  - reflexivity.
  - apply andb_prop in H. destruct H as [H1 H2].
    destruct (String.eqb k0 name); simpl.
    + assumption.
    + now rewrite H1, IH.
Qed.

Lemma forallb_set_entry (g : node -> bool) name c' es :
  g c' = true ->
  forallb (fun e => g (snd e)) es = true ->
  forallb (fun e => g (snd e)) (set_entry name c' es) = true.
Proof.
  intros Hc. induction es as [|[k0 c0] tl IH]; simpl; intros H.
  - reflexivity.
  - apply andb_prop in H. destruct H as [H1 H2].
    destruct (String.eqb k0 name); simpl.
    + now rewrite Hc, H2.
    + now rewrite H1, IH.
Qed.

(** *** Resolution and removal *)

Lemma lookup_app (n : node) (a b : fpath) :
  lookup n (a ++ b) =
  match lookup n a with Some m => lookup m b | None => None end.
Proof.
  revert n. induction a as [|x a IH]; intros n; simpl.
  - reflexivity.
  - destruct n as [| r es |]; try reflexivity.
    destruct (assoc x es); [apply IH | reflexivity].
Qed.

Lemma wfb_assoc (r : bool) (es : entries_t) (name : string) (c : node) :
  wfb (Dir r es) = true -> assoc name es = Some c -> wfb c = true.
Proof.
  simpl. intros H Ha. apply andb_prop in H. destruct H as [_ H].
  rewrite forallb_forall in H. apply (H (name, c)). now apply assoc_Some_in.
Qed.

Lemma wfb_lookup (n m : node) (p : fpath) :
  wfb n = true -> lookup n p = Some m -> wfb m = true.
Proof.
  revert n. induction p as [|x p IH]; intros n Hwf H; simpl in H.
  - now inversion H; subst.
  - destruct n as [| r es |]; try discriminate.
    destruct (assoc x es) as [c|] eqn:Ha; [|discriminate].
    apply (IH c); [|assumption]. eapply wfb_assoc; eassumption.
Qed.

Lemma remove_at_wfb (ok : node -> bool) (n n' : node) (p : fpath) :
  wfb n = true -> remove_at ok n p = Some n' -> wfb n' = true.
Proof.
  revert n n'. induction p as [|x p IH]; intros n n' Hwf H; simpl in H.
  - discriminate.
  - destruct n as [| r es |]; try discriminate.
    destruct (assoc x es) as [c|] eqn:Ha; [|discriminate].
    pose proof (wfb_assoc _ _ _ _ Hwf Ha) as Hc.
    simpl in Hwf. apply andb_prop in Hwf. destruct Hwf as [Hnd Hall].
    destruct p as [|y p].
    + destruct (ok c); [|discriminate]. inversion H; subst. simpl.
      rewrite nodupb_remove_entry by assumption.
      now rewrite forallb_remove_entry.
    + destruct (remove_at ok c (y :: p)) as [c'|] eqn:Hr; [|discriminate].
      inversion H; subst. simpl.
      rewrite map_fst_set_entry, Hnd. simpl.
      apply forallb_set_entry; [|assumption].
      eapply IH; eassumption.
Qed.

(** A removed path resolves to nothing, and no removal makes a path
    resolve that did not. *)
Lemma remove_at_gone (ok : node -> bool) (p : fpath) :
  forall n n', wfb n = true -> remove_at ok n p = Some n' ->
  lookup n' p = None.
Proof.
  induction p as [|x p IH]; intros n n' Hwf H; simpl in H.
  - discriminate.
  - destruct n as [| r es |]; try discriminate.
    destruct (assoc x es) as [c|] eqn:Ha; [|discriminate].
    pose proof (wfb_assoc _ _ _ _ Hwf Ha) as Hc.
    simpl in Hwf. apply andb_prop in Hwf. destruct Hwf as [Hnd _].
    apply nodupb_NoDup in Hnd.
    destruct p as [|y p].
    + destruct (ok c); [|discriminate]. inversion H; subst. simpl.
      now rewrite assoc_remove_same.
    + destruct (remove_at ok c (y :: p)) as [c'|] eqn:Hr; [|discriminate].
      inversion H; subst.
      change (lookup (Dir r (set_entry x c' es)) (x :: y :: p))
        with (match assoc x (set_entry x c' es) with
              | Some c0 => lookup c0 (y :: p)
              | None => None
              end).
      rewrite (assoc_set_same _ _ _ _ Ha). now apply (IH c).
Qed.

Lemma remove_at_keeps_gone (ok : node -> bool) (q : fpath) :
  forall n n' p, wfb n = true -> lookup n p = None ->
  remove_at ok n q = Some n' -> lookup n' p = None.
Proof.
  induction q as [|y q IH]; intros n n' p Hwf Hp H; simpl in H.
  - discriminate.
  - destruct n as [| r es |]; try discriminate.
    destruct (assoc y es) as [c|] eqn:Ha; [|discriminate].
    pose proof (wfb_assoc _ _ _ _ Hwf Ha) as Hc.
    simpl in Hwf. apply andb_prop in Hwf. destruct Hwf as [Hnd _].
    apply nodupb_NoDup in Hnd.
    destruct p as [|x p]; [discriminate|].
    change (lookup (Dir r es) (x :: p))
      with (match assoc x es with
            | Some c0 => lookup c0 p
            | None => None
            end) in Hp.
    destruct q as [|z q].
    + destruct (ok c); [|discriminate]. inversion H; subst.
      change (lookup (Dir r (remove_entry y es)) (x :: p))
        with (match assoc x (remove_entry y es) with
              | Some c0 => lookup c0 p
              | None => None
              end).
      destruct (String.eqb_spec x y) as [E|E].
      * subst x. now rewrite assoc_remove_same.
      * now rewrite assoc_remove_other.
    + destruct (remove_at ok c (z :: q)) as [c'|] eqn:Hr; [|discriminate].
      inversion H; subst.
      change (lookup (Dir r (set_entry y c' es)) (x :: p))
        with (match assoc x (set_entry y c' es) with
              | Some c0 => lookup c0 p
              | None => None
              end).
      destruct (String.eqb_spec x y) as [E|E].
      * subst x. rewrite (assoc_set_same _ _ _ _ Ha). rewrite Ha in Hp.
        now apply (IH c).
      * now rewrite assoc_set_other.
Qed.

Lemma remove_at_app (ok : node -> bool) (root rel : fpath) (fs n : node) :
  lookup fs root = Some n -> rel <> [] ->
  match remove_at ok n rel with
  | Some n' =>
      exists fs', remove_at ok fs (root ++ rel) = Some fs' /\
                  lookup fs' root = Some n'
  | None => remove_at ok fs (root ++ rel) = None
  end.
Proof.
  intros Hl Hrel. revert fs Hl.
  induction root as [|x root IH]; intros fs Hl; simpl in Hl.
  - inversion Hl; subst. simpl.
    destruct (remove_at ok n rel) as [n'|]; [|reflexivity].
    exists n'. now split.
  - destruct fs as [| r es |]; try discriminate.
    destruct (assoc x es) as [c|] eqn:Ha; [|discriminate].
    specialize (IH c Hl). simpl. rewrite Ha.
    destruct (root ++ rel) as [|y tl] eqn:Happ.
    { apply app_eq_nil in Happ. tauto. }
    destruct (remove_at ok n rel) as [n'|].
    + destruct IH as [c' [Hc' Hl']]. rewrite Hc'.
      eexists. split; [reflexivity|]. simpl.
      now rewrite (assoc_set_same _ _ _ _ Ha).
    + now rewrite IH.
Qed.

Lemma remove_at_Dir (ok : node -> bool) (c c' : node) (x : string) (p : fpath) :
  remove_at ok c (x :: p) = Some c' ->
  (exists r es, c = Dir r es) /\ (exists r' es', c' = Dir r' es').
Proof.
  simpl. destruct c as [| r es |]; try discriminate.
  intros H. split; [now exists r, es|].
  destruct (assoc x es) as [c0|]; [|discriminate].
  destruct p.
  - destruct (ok c0); [|discriminate]. inversion H. eauto.
  - destruct (remove_at ok c0 (s :: p)); [|discriminate]. inversion H. eauto.
Qed.

(** Removing one file does not change whether another one can be removed. *)
Lemma deletable_unlink_other (p q : fpath) (n n' : node) :
  wfb n = true -> unlink n p = Some n' -> q <> p ->
  deletable n' q = deletable n q.
Proof.
  unfold deletable, unlink.
  revert n n' q. induction p as [|x p IH]; intros n n' q Hwf H Hne.
  - discriminate.
  - pose proof H as H0. simpl in H.
    destruct n as [| r es |]; try discriminate.
    destruct (assoc x es) as [c|] eqn:Ha; [|discriminate].
    pose proof (wfb_assoc _ _ _ _ Hwf Ha) as Hc.
    simpl in Hwf. apply andb_prop in Hwf. destruct Hwf as [Hnd Hall].
    apply nodupb_NoDup in Hnd.
    destruct q as [|y q]; [reflexivity|].
    destruct p as [|z p].
    + destruct (unlinkable c) eqn:Hok; [|discriminate]. inversion H; subst.
      simpl. destruct (String.eqb_spec y x) as [E|E].
      * subst y. rewrite assoc_remove_same by assumption. rewrite Ha.
        destruct q as [|z q]; [congruence|].
        destruct c; simpl in Hok; try discriminate; reflexivity.
      * rewrite assoc_remove_other by assumption.
        destruct (assoc y es) as [cq|]; [|reflexivity].
        destruct q.
        -- destruct (unlinkable cq); reflexivity.
        -- destruct (remove_at unlinkable cq (s :: q)); reflexivity.
    + destruct (remove_at unlinkable c (z :: p)) as [c'|] eqn:Hr; [|discriminate].
      inversion H; subst. simpl.
      destruct (String.eqb_spec y x) as [E|E].
      * subst y. rewrite (assoc_set_same _ _ _ _ Ha), Ha.
        destruct q as [|w q].
        -- destruct (remove_at_Dir _ _ _ _ _ Hr) as [[r1 [es1 E1]] [r2 [es2 E2]]].
           subst. reflexivity.
        -- assert (w :: q <> z :: p) as Hne' by congruence.
           specialize (IH c c' (w :: q) Hc Hr Hne').
           destruct (remove_at unlinkable c' (w :: q));
             destruct (remove_at unlinkable c (w :: q));
             try reflexivity; discriminate.
      * rewrite assoc_set_other by assumption.
        destruct (assoc y es) as [cq|]; [|reflexivity].
        destruct q.
        -- destruct (unlinkable cq); reflexivity.
        -- destruct (remove_at unlinkable cq (s :: q)); reflexivity.
Qed.

(** *** The scan *)

Lemma walk_Dir (dir : fpath) (es : entries_t) :
  walk dir (Dir true es) = flat_map (entryFiles dir) es.
Proof.
  simpl. apply flat_map_ext. intros [k c]. reflexivity.
Qed.

Lemma walk_unreadable (dir : fpath) (es : entries_t) :
  walk dir (Dir false es) = [].
Proof. reflexivity. Qed.

(** Every scanned path lies strictly below the scanned directory. *)
Lemma walk_below (n : node) :
  forall dir f, In f (walk dir n) ->
  exists x rel, path f = dir ++ x :: rel.
Proof.
  induction n as [st s rm | r es IH |] using node_ind; intros dir f Hin;
    try contradiction.
  destruct r; [|contradiction].
  rewrite walk_Dir in Hin. apply in_flat_map in Hin.
  destruct Hin as [[k c] [He Hf]].
  rewrite Forall_forall in IH. specialize (IH _ He). simpl in IH.
  unfold entryFiles in Hf. simpl in Hf.
  destruct c as [st s rm | r' es' |].
  - destruct s; simpl in Hf; [|contradiction].
    destruct Hf as [Hf|[]]. subst f. simpl. now exists k, [].
  - apply IH in Hf. destruct Hf as [x [rel Hp]].
    exists k, (x :: rel). rewrite Hp. unfold join.
    now rewrite <- app_assoc.
  - contradiction.
Qed.

Lemma entryFiles_below (dir : fpath) (k : string) (c : node) (f : CachedFile) :
  In f (entryFiles dir (k, c)) -> exists rel, path f = dir ++ k :: rel.
Proof.
  unfold entryFiles. simpl. intros Hf.
  destruct c as [st s rm | r' es' |].
  - destruct s; simpl in Hf; [|contradiction].
    destruct Hf as [Hf|[]]. subst f. simpl. now exists [].
  - apply walk_below in Hf. destruct Hf as [x [rel Hp]].
    exists (x :: rel). rewrite Hp. unfold join. now rewrite <- app_assoc.
  - contradiction.
Qed.

Lemma entryFiles_other (dir : fpath) (k name : string) (c : node)
    (rel : fpath) (f : CachedFile) :
  k <> name -> In f (entryFiles dir (k, c)) -> path f <> dir ++ name :: rel.
Proof.
  intros Hne Hf Heq. apply entryFiles_below in Hf. destruct Hf as [rel' Hp].
  rewrite Hp in Heq. apply app_inv_head in Heq. congruence.
Qed.

(** The paths of a scan of a well-formed tree are pairwise distinct. *)
Lemma walk_NoDup (n : node) :
  forall dir, wfb n = true -> NoDup (map path (walk dir n)).
Proof.
  induction n as [st s rm | r es IH |] using node_ind; intros dir Hwf;
    try (simpl; constructor).
  destruct r; [|simpl; constructor].
  rewrite walk_Dir. simpl in Hwf. apply andb_prop in Hwf.
  destruct Hwf as [Hnd Hall]. apply nodupb_NoDup in Hnd.
  induction es as [|[k c] tl IHes]; simpl.
  - constructor.
  - inversion IH as [|? ? IHc IHtl]; subst. simpl in IHc.
    simpl in Hall. apply andb_prop in Hall. destruct Hall as [Hc Htl].
    inversion Hnd as [|? ? Hk Hnd']; subst.
    rewrite map_app. apply NoDup_app.
    + unfold entryFiles. simpl.
      destruct c as [st s rm | r' es' |]; try (simpl; constructor).
      * destruct s; simpl; [|constructor].
        constructor; [intros []|constructor].
      * now apply IHc.
    + now apply IHes.
    + intros p H1 H2. apply in_map_iff in H1. destruct H1 as [f [Ef Hf]].
      apply in_map_iff in H2. destruct H2 as [g [Eg Hg]].
      apply in_flat_map in Hg. destruct Hg as [[k' c'] [He' Hg]].
      apply entryFiles_below in Hf. destruct Hf as [rel Hp].
      assert (k' <> k) as Hne.
      { intros ->. apply Hk. change k with (fst (k, c')). now apply in_map. }
      apply (entryFiles_other dir k' k c' rel g Hne Hg). congruence.
Qed.

Lemma filter_notPath_id (p : fpath) (l : list CachedFile) :
  (forall g, In g l -> path g <> p) -> filter (notPath p) l = l.
Proof.
  induction l as [|g l IH]; simpl; intros H.
  - reflexivity.
  - unfold notPath at 1.
    assert (fpath_eqb (path g) p = false) as ->.
    { apply fpath_eqb_neq. apply H. now left. }
    simpl. f_equal. apply IH. intros g' Hg'. apply H. now right.
Qed.

Lemma filter_notPath_nil (p : fpath) (l : list CachedFile) :
  (forall g, In g l -> path g = p) -> filter (notPath p) l = [].
Proof.
  induction l as [|g l IH]; simpl; intros H.
  - reflexivity.
  - unfold notPath at 1. rewrite (H g) by now left.
    rewrite fpath_eqb_refl. simpl. apply IH.
    intros g' Hg'. apply H. now right.
Qed.

(** Replacing, or dropping, the entry [x] of a directory changes the scan
    of the directory by what it changes in the scan of that entry. *)
Lemma flat_map_set_entry (dir : fpath) (x : string) (c c' : node)
    (rel : fpath) (es : entries_t) :
  NoDup (map fst es) -> assoc x es = Some c ->
  entryFiles dir (x, c') =
    filter (notPath (dir ++ x :: rel)) (entryFiles dir (x, c)) ->
  flat_map (entryFiles dir) (set_entry x c' es) =
    filter (notPath (dir ++ x :: rel)) (flat_map (entryFiles dir) es).
Proof.
  intros Hnd Ha Hc. induction es as [|[k c0] tl IH]; simpl in *.
  - discriminate.
  - inversion Hnd as [|? ? Hk Hnd']; subst. rewrite filter_app.
    destruct (String.eqb_spec k x) as [E|E].
    + subst k. inversion Ha; subst c0. simpl. rewrite Hc. f_equal.
      symmetry. apply filter_notPath_id. intros g Hg.
      apply in_flat_map in Hg. destruct Hg as [[k' c1] [He Hg]].
      apply (entryFiles_other dir k' x c1 rel g); [|assumption].
      intros ->. apply Hk. change x with (fst (x, c1)). now apply in_map.
    + simpl. rewrite IH by assumption. f_equal.
      symmetry. apply filter_notPath_id. intros g Hg.
      now apply (entryFiles_other dir k x c0 rel g).
Qed.

Lemma flat_map_remove_entry (dir : fpath) (x : string) (c : node)
    (rel : fpath) (es : entries_t) :
  NoDup (map fst es) -> assoc x es = Some c ->
  filter (notPath (dir ++ x :: rel)) (entryFiles dir (x, c)) = [] ->
  flat_map (entryFiles dir) (remove_entry x es) =
    filter (notPath (dir ++ x :: rel)) (flat_map (entryFiles dir) es).
Proof.
  intros Hnd Ha Hc. induction es as [|[k c0] tl IH]; simpl in *.
  - discriminate.
  - inversion Hnd as [|? ? Hk Hnd']; subst. rewrite filter_app.
    destruct (String.eqb_spec k x) as [E|E].
    + subst k. inversion Ha; subst c0. rewrite Hc. simpl.
      symmetry. apply filter_notPath_id. intros g Hg.
      apply in_flat_map in Hg. destruct Hg as [[k' c1] [He Hg]].
      apply (entryFiles_other dir k' x c1 rel g); [|assumption].
      intros ->. apply Hk. change x with (fst (x, c1)). now apply in_map.
    + simpl. rewrite IH by assumption. f_equal.
      symmetry. apply filter_notPath_id. intros g Hg.
      now apply (entryFiles_other dir k x c0 rel g).
Qed.

(** [unlink] on a scanned file removes exactly that file from the scan. *)
Lemma walk_unlink (rel : fpath) :
  forall (n n' : node) (dir : fpath) (f : CachedFile),
  wfb n = true -> In f (walk dir n) -> path f = dir ++ rel ->
  unlink n rel = Some n' ->
  walk dir n' = filter (notPath (path f)) (walk dir n).
Proof.
  unfold unlink.
  induction rel as [|x rel IH]; intros n n' dir f Hwf Hin Hp H.
  - discriminate.
  - pose proof H as H0. simpl in H.
    destruct n as [| r es |]; try discriminate.
    destruct r; [|contradiction].
    destruct (assoc x es) as [c|] eqn:Ha; [|discriminate].
    pose proof (wfb_assoc _ _ _ _ Hwf Ha) as Hc.
    simpl in Hwf. apply andb_prop in Hwf. destruct Hwf as [Hnd Hall].
    apply nodupb_NoDup in Hnd.
    rewrite walk_Dir in Hin. apply in_flat_map in Hin.
    destruct Hin as [[k c0] [He Hf]].
    assert (k = x) as ->.
    { destruct (entryFiles_below _ _ _ _ Hf) as [rel' Hp'].
      rewrite Hp in Hp'. apply app_inv_head in Hp'. congruence. }
    rewrite (assoc_in _ _ _ Hnd He) in Ha. inversion Ha; subst c0.
    rewrite Hp.
    destruct rel as [|y rel].
    + destruct (unlinkable c) eqn:Hok; [|discriminate].
      inversion H; subst n'. rewrite !walk_Dir.
      apply flat_map_remove_entry with (c := c);
        [assumption | now apply assoc_in |].
      apply filter_notPath_nil. intros g Hg.
      unfold entryFiles in Hg. simpl in Hg.
      destruct c as [st s rm | |]; simpl in Hok; try discriminate;
        [|contradiction].
      destruct s; simpl in Hg; [|contradiction].
      destruct Hg as [<-|[]]. reflexivity.
    + destruct (remove_at unlinkable c (y :: rel)) as [c'|] eqn:Hr;
        [|discriminate].
      inversion H; subst n'. rewrite !walk_Dir.
      apply flat_map_set_entry with (c := c);
        [assumption | now apply assoc_in |].
      destruct (remove_at_Dir _ _ _ _ _ Hr) as [[r1 [es1 E1]] [r2 [es2 E2]]].
      subst c c'.
      change (entryFiles dir (x, Dir r2 es2))
        with (walk (join dir x) (Dir r2 es2)).
      change (entryFiles dir (x, Dir r1 es1))
        with (walk (join dir x) (Dir r1 es1)) in Hf |- *.
      assert (path f = join dir x ++ y :: rel) as Hp'.
      { rewrite Hp. unfold join. now rewrite <- app_assoc. }
      rewrite <- Hp. apply (IH _ _ _ _ Hc Hf Hp' Hr).
Qed.

Lemma getAllFiles_unlink (fs fs' : node) (root : fpath) (f : CachedFile) :
  wfb fs = true -> In f (getAllFiles fs root) ->
  unlink fs (path f) = Some fs' ->
  getAllFiles fs' root = filter (notPath (path f)) (getAllFiles fs root).
Proof.
  unfold getAllFiles. intros Hwf Hin Hu.
  destruct (lookup fs root) as [n|] eqn:Hl; [|contradiction].
  destruct (walk_below _ _ _ Hin) as [x [rel Hp]].
  assert (x :: rel <> []) as Hne by discriminate.
  pose proof (remove_at_app unlinkable root (x :: rel) fs n Hl Hne) as Happ.
  rewrite Hp in Hu. unfold unlink in Hu.
  destruct (remove_at unlinkable n (x :: rel)) as [n'|] eqn:Hr.
  - destruct Happ as [fs'' [E1 E2]]. rewrite E1 in Hu. inversion Hu; subst.
    rewrite E2. apply (walk_unlink (x :: rel)); try assumption.
    eapply wfb_lookup; eassumption.
  - congruence.
Qed.

(** A scanned path resolves to a regular file. *)
Lemma walk_is_file (n : node) :
  forall dir f, wfb n = true -> In f (walk dir n) ->
  exists rel, path f = dir ++ rel /\ is_file n rel = true.
Proof.
  induction n as [st s rm | r es IH |] using node_ind; intros dir f Hwf Hin;
    try contradiction.
  destruct r; [|contradiction].
  rewrite walk_Dir in Hin. apply in_flat_map in Hin.
  destruct Hin as [[k c] [He Hf]].
  rewrite Forall_forall in IH. specialize (IH _ He). simpl in IH.
  pose proof Hwf as Hwf'. simpl in Hwf'. apply andb_prop in Hwf'.
  destruct Hwf' as [Hnd Hall]. apply nodupb_NoDup in Hnd.
  pose proof (assoc_in k c es Hnd He) as Ha.
  pose proof (wfb_assoc _ _ _ _ Hwf Ha) as Hc.
  unfold entryFiles in Hf. simpl in Hf.
  destruct c as [st s rm | r' es' |].
  - destruct s; simpl in Hf; [|contradiction].
    destruct Hf as [<-|[]]. exists [k]. split; [reflexivity|].
    unfold is_file. simpl. now rewrite Ha.
  - destruct (IH _ _ Hc Hf) as [rel [Hp Hfile]].
    exists (k :: rel). split.
    + rewrite Hp. unfold join. now rewrite <- app_assoc.
    + unfold is_file in *. simpl. now rewrite Ha.
  - contradiction.
Qed.

Lemma getAllFiles_is_file (fs : node) (root : fpath) (f : CachedFile) :
  wfb fs = true -> In f (getAllFiles fs root) -> is_file fs (path f) = true.
Proof.
  unfold getAllFiles. intros Hwf Hin.
  destruct (lookup fs root) as [n|] eqn:Hl; [|contradiction].
  destruct (walk_is_file n root f (wfb_lookup _ _ _ Hwf Hl) Hin)
    as [rel [Hp Hfile]].
  unfold is_file in *. now rewrite Hp, lookup_app, Hl.
Qed.

(** *** The scan made call by call *)

Lemma height_entry (r : bool) (es : entries_t) (k : string) (c : node) :
  In (k, c) es -> (height c < height (Dir r es))%nat.
Proof.
  simpl. induction es as [|[k0 c0] tl IH]; simpl; intros Hin.
  - contradiction.
  - destruct Hin as [Hin|Hin].
    + inversion Hin; subst. lia.
    + specialize (IH Hin). lia.
Qed.

Lemma height_lookup (p : fpath) :
  forall n m, lookup n p = Some m -> (height m <= height n)%nat.
Proof.
  induction p as [|x p IH]; intros n m H; simpl in H.
  - inversion H; subst. lia.
  - destruct n as [| r es |]; try discriminate.
    destruct (assoc x es) as [c|] eqn:Ha; [|discriminate].
    apply IH in H. apply assoc_Some_in in Ha.
    pose proof (height_entry r es x c Ha). lia.
Qed.

Lemma flat_map_map_ext_in {A B C : Type} (g : A -> B) (f : B -> list C)
    (h : A -> list C) (l : list A) :
  (forall a, In a l -> f (g a) = h a) ->
  flat_map f (map g l) = flat_map h l.
Proof.
  induction l as [|a l IH]; simpl; intros H.
  - reflexivity.
  - rewrite (H a) by now left. f_equal. apply IH.
    intros b Hb. apply H. now right.
Qed.

Lemma getAllFiles_paths_walk (fs : node) (fuel : nat) :
  forall dir n,
  lookup fs dir = Some n -> wfb n = true -> (height n < fuel)%nat ->
  getAllFiles_paths fuel fs dir = walk dir n.
Proof.
  induction fuel as [|fuel IH]; intros dir n Hl Hwf Hh; [lia|].
  simpl. unfold readdirWithFileTypes. rewrite Hl.
  destruct n as [st s rm | r es |]; try reflexivity.
  destruct r; [|reflexivity].
  rewrite walk_Dir. apply flat_map_map_ext_in. intros [k c] He.
  pose proof (height_entry true es k c He) as Hc.
  pose proof Hwf as Hwf'. simpl in Hwf'. apply andb_prop in Hwf'.
  destruct Hwf' as [Hnd Hall]. apply nodupb_NoDup in Hnd.
  pose proof (assoc_in k c es Hnd He) as Ha.
  assert (lookup fs (join dir k) = Some c) as Hlc.
  { unfold join. rewrite lookup_app, Hl. simpl. now rewrite Ha. }
  destruct c as [st s rm | r' es' |].
  - unfold entryFiles, statAt. simpl. now rewrite Hlc.
  - change (entryFiles dir (k, Dir r' es'))
      with (walk (join dir k) (Dir r' es')).
    change (getAllFiles_paths fuel fs (join dir k) =
            walk (join dir k) (Dir r' es')).
    apply IH; [assumption | | lia].
    eapply wfb_assoc; eassumption.
  - reflexivity.
Qed.

Lemma getAllFiles_paths_enough (fs : node) (fuel : nat) (dir : fpath) :
  wfb fs = true -> (height fs < fuel)%nat ->
  getAllFiles_paths fuel fs dir = getAllFiles fs dir.
Proof.
  intros Hwf Hh. unfold getAllFiles.
  destruct (lookup fs dir) as [n|] eqn:Hl.
  - apply getAllFiles_paths_walk; try assumption.
    + eapply wfb_lookup; eassumption.
    + apply height_lookup in Hl. lia.
  - destruct fuel; [reflexivity|]. simpl.
    unfold readdirWithFileTypes. now rewrite Hl.
Qed.

(** * The two deletion loops *)

Lemma fold_size_acc (l : list CachedFile) (a : Z) :
  fold_left (fun sum f => sum + size f) l a = a + totalSize l.
Proof.
  unfold totalSize. revert a. induction l as [|f l IH]; intros a; simpl.
  - lia.
  - rewrite (IH (a + size f)), (IH (size f)). lia.
Qed.

Lemma totalSize_cons (f : CachedFile) (l : list CachedFile) :
  totalSize (f :: l) = size f + totalSize l.
Proof. unfold totalSize at 1. simpl. rewrite fold_size_acc. lia. Qed.

Lemma totalSize_app (l1 l2 : list CachedFile) :
  totalSize (l1 ++ l2) = totalSize l1 + totalSize l2.
Proof.
  induction l1 as [|f l1 IH]; simpl.
  - reflexivity.
  - rewrite !totalSize_cons, IH. lia.
Qed.

Lemma result_eq (a b : CleanupResult) :
  filesDeleted a = filesDeleted b -> bytesFreed a = bytesFreed b ->
  expiredFiles a = expiredFiles b -> lruFiles a = lruFiles b ->
  errors a = errors b -> a = b.
Proof. destruct a, b; simpl; intros; subst; reflexivity. Qed.

Ltac result_fields :=
  apply result_eq; simpl;
  rewrite ?totalSize_cons, ?app_nil_r, <- ?app_assoc;
  try reflexivity; try (unfold totalSize; simpl; lia).

Lemma removePaths_In (ps : list fpath) (T : list CachedFile) (g : CachedFile) :
  In g (removePaths ps T) <-> In g T /\ ~ In (path g) ps.
Proof.
  revert T. induction ps as [|p ps IH]; intros T; simpl.
  - tauto.
  - rewrite IH, filter_In. unfold notPath. rewrite negb_true_iff, fpath_eqb_neq.
    split.
    + intros [[H1 H2] H3]. split; [assumption|]. intros [E|E]; congruence.
    + intros [H1 H2]. repeat split; try assumption; intros E; apply H2; auto.
Qed.

Lemma removePaths_app (ps qs : list fpath) (T : list CachedFile) :
  removePaths (ps ++ qs) T = removePaths qs (removePaths ps T).
Proof.
  revert T. induction ps as [|p ps IH]; intros T; simpl.
  - reflexivity.
  - apply IH.
Qed.

Section Loops.

Variable config : CleanupConfig.
Variable now : Z.
Variable root : fpath.

(** [d] fixes, for every path, whether [unlink] succeeds on it. *)
Variable d : fpath -> bool.

Lemma safeDelete_spec (fs : node) (T : list CachedFile) (f : CachedFile) :
  Inv root d fs T -> In f T ->
  exists fs',
    safeDelete fs (path f) = (fs', d (path f)) /\
    Inv root d fs' (if d (path f) then filter (notPath (path f)) T else T).
Proof.
  intros [Hwf Hscan Hdel] Hin.
  pose proof (Hdel f Hin) as Hd. unfold deletable in Hd.
  unfold safeDelete.
  destruct (unlink fs (path f)) as [fs'|] eqn:Hu; rewrite <- Hd.
  - exists fs'. split; [reflexivity|]. subst T. constructor.
    + eapply remove_at_wfb; eassumption.
    + now apply getAllFiles_unlink.
    + intros g Hg. apply filter_In in Hg. destruct Hg as [Hg Hne].
      unfold notPath in Hne. apply negb_true_iff, fpath_eqb_neq in Hne.
      rewrite <- (Hdel g Hg).
      now apply deletable_unlink_other with (p := path f).
  - exists fs. split; [reflexivity|]. now constructor.
Qed.

Lemma rest_in_filter (f : CachedFile) (rest T : list CachedFile) :
  NoDup (map path (f :: rest)) ->
  (forall g, In g (f :: rest) -> In g T) ->
  forall g, In g rest -> In g (filter (notPath (path f)) T).
Proof.
  intros Hnd Hsub g Hg. apply filter_In. split.
  - apply Hsub. now right.
  - unfold notPath. apply negb_true_iff, fpath_eqb_neq. intros E.
    inversion Hnd as [|? ? Hn _]; subst. apply Hn. rewrite <- E.
    now apply in_map.
Qed.

Lemma ttlLoop_spec (files : list CachedFile) :
  forall fs T r rem,
  Inv root d fs T -> (forall f, In f files -> In f T) -> NoDup (map path files) ->
  exists fs',
    ttlLoop config now files fs r rem =
      (fs', addExpired r (ttlDeleted config now d files) (ttlFailed config now d files),
       rem ++ ttlSurvivors config now files) /\
    Inv root d fs' (removePaths (map path (ttlDeleted config now d files)) T).
Proof.
  induction files as [|f rest IH]; intros fs T r rem HI Hsub Hnd.
  - exists fs. simpl. split; [|assumption]. f_equal; [f_equal|].
    + result_fields.
    + now rewrite app_nil_r.
  - simpl. unfold ttlDeleted, ttlFailed, ttlSurvivors. simpl.
    fold (expired config now f). fold (ttlDeleted config now d rest) (ttlFailed config now d rest)
      (ttlSurvivors config now rest).
    assert (NoDup (map path rest)) as Hnd' by (now inversion Hnd).
    destruct (expired config now f) eqn:He; simpl.
    + destruct (safeDelete_spec fs T f HI (Hsub f (or_introl eq_refl)))
        as [fs1 [Hsd HI1]].
      rewrite Hsd. destruct (d (path f)) eqn:Hd; simpl.
      * destruct (IH fs1 _ (recordExpired r f) rem HI1
                    (rest_in_filter f rest T Hnd Hsub) Hnd')
          as [fs' [Hl HI']].
        exists fs'. split; [|exact HI']. rewrite Hl. f_equal. f_equal.
        result_fields.
      * assert (forall g, In g rest -> In g T) as Hsub'
          by (intros g Hg; apply Hsub; now right).
        destruct (IH fs1 _ (recordError r (expiredError f)) rem HI1 Hsub' Hnd')
          as [fs' [Hl HI']].
        exists fs'. split; [|exact HI']. rewrite Hl. f_equal. f_equal.
        result_fields.
    + assert (forall g, In g rest -> In g T) as Hsub'
        by (intros g Hg; apply Hsub; now right).
      destruct (IH fs T r (rem ++ [f]) HI Hsub' Hnd') as [fs' [Hl HI']].
      exists fs'. split; [|exact HI']. rewrite Hl. f_equal.
      now rewrite <- app_assoc.
Qed.

Lemma lruLoop_spec (files : list CachedFile) :
  forall fs T r cur,
  Inv root d fs T -> (forall f, In f files -> In f T) -> NoDup (map path files) ->
  exists fs',
    lruLoop config files fs r cur =
      (fs', addLru r (lruDeleted config d files cur) (lruFailed config d files cur)) /\
    Inv root d fs' (removePaths (map path (lruDeleted config d files cur)) T).
Proof.
  induction files as [|f rest IH]; intros fs T r cur HI Hsub Hnd.
  - exists fs. simpl. split; [|assumption]. f_equal.
    result_fields.
  - simpl. unfold lruDeleted, lruFailed. simpl.
    destruct (cur <=? maxSizeBytes config) eqn:Hc.
    + exists fs. simpl. split; [|assumption]. f_equal.
      result_fields.
    + assert (NoDup (map path rest)) as Hnd' by (now inversion Hnd).
      destruct (safeDelete_spec fs T f HI (Hsub f (or_introl eq_refl)))
        as [fs1 [Hsd HI1]].
      rewrite Hsd. simpl. destruct (d (path f)) eqn:Hd; simpl.
      * fold (lruDeleted config d rest (cur - size f)) (lruFailed config d rest (cur - size f)).
        destruct (IH fs1 _ (recordLru r f) (cur - size f) HI1
                    (rest_in_filter f rest T Hnd Hsub) Hnd')
          as [fs' [Hl HI']].
        exists fs'. split; [|exact HI']. rewrite Hl. f_equal.
        result_fields.
      * fold (lruDeleted config d rest cur) (lruFailed config d rest cur).
        assert (forall g, In g rest -> In g T) as Hsub'
          by (intros g Hg; apply Hsub; now right).
        destruct (IH fs1 _ (recordError r (lruError f)) cur HI1 Hsub' Hnd')
          as [fs' [Hl HI']].
        exists fs'. split; [|exact HI']. rewrite Hl. f_equal.
        result_fields.
Qed.

End Loops.

(** What the loops leave behind: a listed path no longer resolves. *)
Lemma safeDelete_gone (fs fs' : node) (p : fpath) (deleted : bool) :
  wfb fs = true -> safeDelete fs p = (fs', deleted) ->
  wfb fs' = true /\
  (forall q, lookup fs q = None -> lookup fs' q = None) /\
  (deleted = true -> lookup fs' p = None).
Proof.
  unfold safeDelete, unlink. intros Hwf H.
  destruct (remove_at unlinkable fs p) as [fs1|] eqn:Hu;
    inversion H; subst.
  - split; [eapply remove_at_wfb; eassumption|]. split.
    + intros q Hq. eapply remove_at_keeps_gone; eassumption.
    + intros _. eapply remove_at_gone; eassumption.
  - split; [assumption|]. split; [auto | discriminate].
Qed.

Lemma ttlLoop_gone (config : CleanupConfig) (now : Z)
    (files : list CachedFile) :
  forall fs r rem fs' r' rem',
  wfb fs = true ->
  ttlLoop config now files fs r rem = (fs', r', rem') ->
  wfb fs' = true /\
  (forall q, lookup fs q = None -> lookup fs' q = None) /\
  (forall p, In p (expiredFiles r') ->
     In p (expiredFiles r) \/ lookup fs' p = None).
Proof.
  induction files as [|f rest IH]; intros fs r rem fs' r' rem' Hwf H;
    simpl in H.
  - inversion H; subst. auto.
  - destruct (now - modTime f >? ttlMs config).
    + destruct (safeDelete fs (path f)) as [fs1 deleted] eqn:Hsd.
      destruct (safeDelete_gone _ _ _ _ Hwf Hsd) as [Hwf1 [Hkeep Hgone]].
      destruct deleted.
      * destruct (IH _ _ _ _ _ _ Hwf1 H) as [Hwf' [Hkeep' Hlist]].
        split; [assumption|]. split; [auto|].
        intros p Hp. destruct (Hlist p Hp) as [Hin|Hno]; [|now right].
        simpl in Hin. apply in_app_or in Hin.
        destruct Hin as [Hin|[<-|[]]]; [now left|].
        right. apply Hkeep'. now apply Hgone.
      * destruct (IH _ _ _ _ _ _ Hwf1 H) as [Hwf' [Hkeep' Hlist]].
        split; [assumption|]. split; [auto|]. exact Hlist.
    + apply (IH _ _ _ _ _ _ Hwf H).
Qed.

Lemma lruLoop_gone (config : CleanupConfig) (files : list CachedFile) :
  forall fs r cur fs' r',
  wfb fs = true ->
  lruLoop config files fs r cur = (fs', r') ->
  wfb fs' = true /\
  (forall q, lookup fs q = None -> lookup fs' q = None) /\
  (forall p, In p (lruFiles r') -> In p (lruFiles r) \/ lookup fs' p = None).
Proof.
  induction files as [|f rest IH]; intros fs r cur fs' r' Hwf H; simpl in H.
  - inversion H; subst. auto.
  - destruct (cur <=? maxSizeBytes config).
    + inversion H; subst. auto.
    + destruct (safeDelete fs (path f)) as [fs1 deleted] eqn:Hsd.
      destruct (safeDelete_gone _ _ _ _ Hwf Hsd) as [Hwf1 [Hkeep Hgone]].
      destruct deleted.
      * destruct (IH _ _ _ _ _ Hwf1 H) as [Hwf' [Hkeep' Hlist]].
        split; [assumption|]. split; [auto|].
        intros p Hp. destruct (Hlist p Hp) as [Hin|Hno]; [|now right].
        simpl in Hin. apply in_app_or in Hin.
        destruct Hin as [Hin|[<-|[]]]; [now left|].
        right. apply Hkeep'. now apply Hgone.
      * destruct (IH _ _ _ _ _ Hwf1 H) as [Hwf' [Hkeep' Hlist]].
        split; [assumption|]. split; [auto|]. exact Hlist.
Qed.

(** * The sort of step 2 *)

Lemma insertByAccess_perm (a : CachedFile) (l : list CachedFile) :
  Permutation (insertByAccess a l) (a :: l).
Proof.
  induction l as [|b l IH]; simpl.
  - apply Permutation_refl.
  - destruct (accessTime a - accessTime b <=? 0).
    + apply Permutation_refl.
    + eapply perm_trans; [apply perm_skip, IH | apply perm_swap].
Qed.

Lemma sortByAccess_perm (l : list CachedFile) :
  Permutation (sortByAccess l) l.
Proof.
  induction l as [|a l IH]; simpl.
  - constructor.
  - eapply perm_trans; [apply insertByAccess_perm | now apply perm_skip].
Qed.

Lemma sortByAccess_In (l : list CachedFile) (f : CachedFile) :
  In f (sortByAccess l) <-> In f l.
Proof.
  split; apply Permutation_in;
    [apply sortByAccess_perm | apply Permutation_sym, sortByAccess_perm].
Qed.

Lemma insertByAccess_sorted (a : CachedFile) (l : list CachedFile) :
  StronglySorted accessLe l -> StronglySorted accessLe (insertByAccess a l).
Proof.
  induction l as [|b l IH]; simpl; intros Hs.
  - repeat constructor.
  - inversion Hs as [|? ? Hl Hb]; subst.
    destruct (accessTime a - accessTime b <=? 0) eqn:E.
    + apply Z.leb_le in E. constructor; [assumption|].
      constructor; [unfold accessLe; lia|].
      eapply Forall_impl; [|exact Hb]. unfold accessLe. intros; lia.
    + apply Z.leb_gt in E. constructor; [now apply IH|].
      eapply Permutation_Forall;
        [apply Permutation_sym, insertByAccess_perm|].
      constructor; [unfold accessLe; lia | assumption].
Qed.

Lemma sortByAccess_sorted (l : list CachedFile) :
  StronglySorted accessLe (sortByAccess l).
Proof.
  induction l as [|a l IH]; simpl.
  - constructor.
  - now apply insertByAccess_sorted.
Qed.

Lemma sortByAccess_NoDup (l : list CachedFile) :
  NoDup (map path l) -> NoDup (map path (sortByAccess l)).
Proof.
  apply Permutation_NoDup, Permutation_map, Permutation_sym, sortByAccess_perm.
Qed.

Lemma totalSize_perm (l l' : list CachedFile) :
  Permutation l l' -> totalSize l = totalSize l'.
Proof.
  induction 1; rewrite ?totalSize_cons; lia.
Qed.

(** * The whole run *)

Lemma parentDir_shorter (dir : fpath) :
  dir <> [] -> (List.length (parentDir dir) < List.length dir)%nat.
Proof.
  intros Hne. unfold parentDir.
  rewrite (app_removelast_last EmptyString Hne) at 2.
  rewrite length_app. simpl. lia.
Qed.

(** The counter of [cleanEmptyDirs] never runs out: any counter above the
    length of [dir] gives the same file system. *)
Lemma cleanEmptyDirs_from_enough (k : nat) :
  forall dir rootDir fs,
  (List.length dir < k)%nat ->
  cleanEmptyDirs_from k dir rootDir fs = cleanEmptyDirs dir rootDir fs.
Proof.
  unfold cleanEmptyDirs.
  assert (forall k1 k2 dir rootDir fs,
            (List.length dir < k1)%nat -> (List.length dir < k2)%nat ->
            cleanEmptyDirs_from k1 dir rootDir fs =
            cleanEmptyDirs_from k2 dir rootDir fs) as H.
  { clear k. induction k1 as [|k1 IH]; intros k2 dir rootDir fs H1 H2;
      [lia|].
    destruct k2 as [|k2]; [lia|]. simpl.
    destruct (fpath_eqb dir rootDir); [reflexivity|].
    destruct (readdir fs dir) as [entries|]; [|reflexivity].
    destruct (List.length entries =? 0)%nat; [|reflexivity].
    destruct (rmdir fs dir) as [fs'|] eqn:Hr; [|reflexivity].
    assert (dir <> []) as Hne by (intros ->; discriminate).
    pose proof (parentDir_shorter dir Hne).
    apply IH; lia. }
  intros dir rootDir fs Hk. apply H; lia.
Qed.

Lemma cleanEmptyDirs_root (root : fpath) (fs : node) :
  cleanEmptyDirs root root fs = fs.
Proof.
  unfold cleanEmptyDirs. simpl. now rewrite fpath_eqb_refl.
Qed.

Lemma getAllFiles_NoDup (fs : node) (root : fpath) :
  wfb fs = true -> NoDup (map path (getAllFiles fs root)).
Proof.
  intros Hwf. unfold getAllFiles.
  destruct (lookup fs root) as [n|] eqn:Hl; [|constructor].
  apply walk_NoDup. eapply wfb_lookup; eassumption.
Qed.

Lemma NoDup_path_inj (l : list CachedFile) (f g : CachedFile) :
  NoDup (map path l) -> In f l -> In g l -> path f = path g -> f = g.
Proof.
  induction l as [|a l IH]; simpl; intros Hnd Hf Hg E.
  - contradiction.
  - inversion Hnd as [|? ? Hn Hnd']; subst.
    destruct Hf as [Hf|Hf], Hg as [Hg|Hg]; subst.
    + reflexivity.
    + exfalso. apply Hn. rewrite E. now apply in_map.
    + exfalso. apply Hn. rewrite <- E. now apply in_map.
    + now apply IH.
Qed.

Lemma lruAttempts_within (d : fpath -> bool) (max : Z)
    (files : list CachedFile) (cur : Z) :
  cur <= max -> lruAttempts d max files cur = [].
Proof.
  intros H. destruct files; simpl; [reflexivity|].
  apply Z.leb_le in H. now rewrite H.
Qed.

(** The run in closed form.  [d] is what [unlink] would answer on the
    initial file system; the report lists the expired files and the
    least-recently-used files that [d] lets go, the errors those it does
    not, and the final file system scans to the inventory without the
    deleted files. *)
Lemma runCleanup_spec (config : CleanupConfig) (now : Z) (fs : node) :
  wfb fs = true ->
  let root := cacheDirectory config in
  let d := deletable fs in
  let files := getAllFiles fs root in
  let S := ttlSurvivors config now files in
  let D1 := ttlDeleted config now d files in
  let F1 := ttlFailed config now d files in
  let D2 := lruDeleted config d (sortByAccess S) (totalSize S) in
  let F2 := lruFailed config d (sortByAccess S) (totalSize S) in
  exists fs',
    runCleanup config now fs =
      (fs', addLru (addExpired emptyResult D1 F1) D2 F2) /\
    Inv root d fs' (removePaths (map path D1 ++ map path D2) files).
Proof.
  intros Hwf root d files S D1 F1 D2 F2.
  assert (Inv root d fs files) as HI0 by (constructor; auto).
  pose proof (getAllFiles_NoDup fs root Hwf) as Hnd. fold files in Hnd.
  unfold runCleanup. fold root. fold files.
  destruct (List.length files =? 0)%nat eqn:Hlen.
  - apply Nat.eqb_eq in Hlen. apply length_zero_iff_nil in Hlen.
    subst D1 F1 D2 F2 S. rewrite Hlen in *. simpl.
    exists fs. split; [|assumption]. f_equal.
  - destruct (ttlLoop_spec config now root d files fs files emptyResult []
                HI0 (fun f H => H) Hnd) as [fs1 [Hl1 HI1]].
    rewrite Hl1. simpl app. fold S D1 F1.
    destruct (totalSize S >? maxSizeBytes config) eqn:Hover.
    + assert (forall f, In f (sortByAccess S) ->
                        In f (removePaths (map path D1) files)) as Hsub.
      { intros f Hf. apply (proj1 (sortByAccess_In S f)) in Hf.
        apply filter_In in Hf. destruct Hf as [Hf He].
        apply removePaths_In. split; [assumption|].
        intros Hp. apply in_map_iff in Hp. destruct Hp as [g [Eg Hg]].
        apply filter_In in Hg. destruct Hg as [Hg Hge].
        assert (g = f) as -> by (eapply NoDup_path_inj; eassumption).
        apply andb_prop in Hge. destruct Hge as [Hge _].
        rewrite Hge in He. discriminate. }
      assert (NoDup (map path (sortByAccess S))) as HndS.
      { apply sortByAccess_NoDup. unfold S, ttlSurvivors.
        clear - Hnd. induction files as [|a l IH]; simpl; [constructor|].
        inversion Hnd as [|? ? Hn Hnd']; subst.
        destruct (negb (expired config now a)); simpl; [|now apply IH].
        constructor; [|now apply IH].
        intros Hin. apply Hn. apply in_map_iff in Hin.
        destruct Hin as [g [Eg Hg]]. apply filter_In in Hg.
        rewrite <- Eg. apply in_map. tauto. }
      destruct (lruLoop_spec config root d (sortByAccess S) fs1 _
                  (addExpired emptyResult D1 F1) (totalSize S)
                  HI1 Hsub HndS) as [fs2 [Hl2 HI2]].
      rewrite Hl2, cleanEmptyDirs_root. exists fs2. split; [reflexivity|].
      now rewrite removePaths_app.
    + assert (totalSize S <= maxSizeBytes config) as Hle.
      { destruct (Z.gtb_spec (totalSize S) (maxSizeBytes config));
          [discriminate | lia]. }
      rewrite cleanEmptyDirs_root.
      exists fs1. subst D2 F2. unfold lruDeleted, lruFailed.
      rewrite lruAttempts_within by assumption. simpl.
      rewrite app_nil_r. split; [|assumption]. f_equal. result_fields.
Qed.

Lemma ttlLoop_lruFiles (config : CleanupConfig) (now : Z)
    (files : list CachedFile) :
  forall fs r rem fs' r' rem',
  ttlLoop config now files fs r rem = (fs', r', rem') ->
  lruFiles r' = lruFiles r.
Proof.
  induction files as [|f rest IH]; intros fs r rem fs' r' rem' H; simpl in H.
  - now inversion H.
  - destruct (now - modTime f >? ttlMs config).
    + destruct (safeDelete fs (path f)) as [fs1 [|]];
        apply IH in H; exact H.
    + apply IH in H. exact H.
Qed.

Lemma lruLoop_expiredFiles (config : CleanupConfig)
    (files : list CachedFile) :
  forall fs r cur fs' r',
  lruLoop config files fs r cur = (fs', r') ->
  expiredFiles r' = expiredFiles r.
Proof.
  induction files as [|f rest IH]; intros fs r cur fs' r' H; simpl in H.
  - now inversion H.
  - destruct (cur <=? maxSizeBytes config); [now inversion H|].
    destruct (safeDelete fs (path f)) as [fs1 [|]]; apply IH in H; exact H.
Qed.

(** Every path a report lists as deleted resolves to nothing in the file
    system the run returns. *)
Lemma runCleanup_gone (config : CleanupConfig) (now : Z) (fs : node)
    (p : fpath) :
  wfb fs = true ->
  In p (expiredFiles (report config now fs)) \/
  In p (lruFiles (report config now fs)) ->
  lookup (cleaned config now fs) p = None.
Proof.
  unfold report, cleaned, runCleanup. intros Hwf.
  destruct (List.length (getAllFiles fs (cacheDirectory config)) =? 0)%nat.
  - simpl. tauto.
  - destruct (ttlLoop config now (getAllFiles fs (cacheDirectory config)) fs
                emptyResult []) as [[fs1 r1] rem] eqn:E1.
    destruct (ttlLoop_gone _ _ _ _ _ _ _ _ _ Hwf E1) as [Hwf1 [_ Hlist1]].
    pose proof (ttlLoop_lruFiles _ _ _ _ _ _ _ _ _ E1) as Hl1.
    simpl in Hl1, Hlist1.
    destruct (totalSize rem >? maxSizeBytes config).
    + destruct (lruLoop config (sortByAccess rem) fs1 r1 (totalSize rem))
        as [fs2 r2] eqn:E2.
      destruct (lruLoop_gone _ _ _ _ _ _ _ Hwf1 E2) as [_ [Hkeep2 Hlist2]].
      pose proof (lruLoop_expiredFiles _ _ _ _ _ _ _ E2) as He2.
      rewrite cleanEmptyDirs_root. simpl. rewrite He2.
      intros [Hp|Hp].
      * destruct (Hlist1 p Hp) as [[]|Hno]. now apply Hkeep2.
      * destruct (Hlist2 p Hp) as [Hin|Hno]; [|assumption].
        rewrite Hl1 in Hin. contradiction.
    + rewrite cleanEmptyDirs_root. simpl. rewrite Hl1.
      intros [Hp|[]]. now destruct (Hlist1 p Hp) as [[]|Hno].
Qed.

(** * Facts about the plan *)

Lemma filter_comm {A : Type} (f g : A -> bool) (l : list A) :
  filter f (filter g l) = filter g (filter f l).
Proof.
  induction l as [|a l IH]; simpl.
  - reflexivity.
  - destruct (f a) eqn:Ef, (g a) eqn:Eg; simpl; rewrite ?Ef, ?Eg, IH;
      reflexivity.
Qed.

Lemma removePaths_filter (h : CachedFile -> bool) (ps : list fpath)
    (T : list CachedFile) :
  filter h (removePaths ps T) = removePaths ps (filter h T).
Proof.
  revert T. induction ps as [|p ps IH]; intros T; simpl.
  - reflexivity.
  - now rewrite IH, filter_comm.
Qed.

Lemma removePaths_NoDup (ps : list fpath) (T : list CachedFile) :
  NoDup (map path T) -> NoDup (map path (removePaths ps T)).
Proof.
  revert T. induction ps as [|p ps IH]; intros T H; simpl.
  - assumption.
  - apply IH. clear IH. induction T as [|a T IHT]; simpl; [constructor|].
    inversion H as [|? ? Hn Hnd]; subst.
    destruct (notPath p a); simpl; [|now apply IHT].
    constructor; [|now apply IHT].
    intros Hin. apply Hn. apply in_map_iff in Hin.
    destruct Hin as [g [Eg Hg]]. apply filter_In in Hg.
    rewrite <- Eg. apply in_map. tauto.
Qed.

Lemma filter_notPath_perm (T : list CachedFile) (f : CachedFile) :
  NoDup (map path T) -> In f T ->
  Permutation T (f :: filter (notPath (path f)) T).
Proof.
  induction T as [|a T IH]; simpl; intros Hnd Hin.
  - contradiction.
  - inversion Hnd as [|? ? Hn Hnd']; subst. destruct Hin as [->|Hin].
    + unfold notPath at 1. rewrite fpath_eqb_refl. simpl.
      apply perm_skip. rewrite filter_notPath_id; [apply Permutation_refl|].
      intros g Hg E. apply Hn. rewrite <- E. now apply in_map.
    + unfold notPath at 1.
      assert (fpath_eqb (path a) (path f) = false) as ->.
      { apply fpath_eqb_neq. intros E. apply Hn. rewrite E. now apply in_map. }
      simpl. eapply perm_trans; [apply perm_skip, IH; assumption|].
      apply perm_swap.
Qed.

(** Deleting the files [D] of a scan [T] splits [T] into [D] and the rest. *)
Lemma removePaths_perm (D : list CachedFile) :
  forall T, NoDup (map path T) -> NoDup (map path D) ->
  (forall f, In f D -> In f T) ->
  Permutation T (D ++ removePaths (map path D) T).
Proof.
  induction D as [|f D IH]; intros T HT HD Hsub; simpl.
  - apply Permutation_refl.
  - eapply perm_trans.
    + apply filter_notPath_perm; [assumption | apply Hsub; now left].
    + apply perm_skip. apply IH.
      * apply (removePaths_NoDup [path f]). assumption.
      * now inversion HD.
      * now apply rest_in_filter.
Qed.

Section Plan.

Variable d : fpath -> bool.
Variable max : Z.

Lemma lruAttempts_In (L : list CachedFile) :
  forall cur g, In g (lruAttempts d max L cur) -> In g L.
Proof.
  induction L as [|f L IH]; intros cur g; simpl.
  - auto.
  - destruct (cur <=? max); simpl; [contradiction|].
    intros [E|Hg]; [now left | right; eapply IH; eassumption].
Qed.

(** The attempts are an initial segment of the ordered candidates. *)
Lemma lruAttempts_prefix (L : list CachedFile) :
  forall cur, exists rest, L = lruAttempts d max L cur ++ rest.
Proof.
  induction L as [|f L IH]; intros cur; simpl.
  - now exists [].
  - destruct (cur <=? max); simpl.
    + now exists (f :: L).
    + destruct (IH (if d (path f) then cur - size f else cur)) as [rest E].
      exists rest. now rewrite <- E.
Qed.

(** The loop stops for one of two reasons only: the candidates are
    exhausted, or the running size is within the limit. *)
Lemma lruAttempts_stop (L : list CachedFile) :
  forall cur,
  lruAttempts d max L cur = L \/
  cur - totalSize (filter (fun f => d (path f)) (lruAttempts d max L cur))
    <= max.
Proof.
  induction L as [|f L IH]; intros cur; simpl.
  - now left.
  - destruct (cur <=? max) eqn:E; simpl.
    + right. apply Z.leb_le in E. unfold totalSize. simpl. lia.
    + destruct (d (path f)) eqn:Hd.
      * destruct (IH (cur - size f)) as [H|H].
        -- left. now rewrite H.
        -- right. rewrite totalSize_cons. lia.
      * destruct (IH cur) as [H|H].
        -- left. now rewrite H.
        -- now right.
Qed.

Lemma lruAttempts_sorted (L : list CachedFile) :
  forall cur, StronglySorted accessLe L ->
  StronglySorted accessLe (lruAttempts d max L cur).
Proof.
  induction L as [|f L IH]; intros cur Hs; simpl.
  - constructor.
  - destruct (cur <=? max); [constructor|].
    inversion Hs as [|? ? HL Hf]; subst. constructor.
    + now apply IH.
    + rewrite Forall_forall in *. intros g Hg. apply Hf.
      eapply lruAttempts_In; eassumption.
Qed.

End Plan.

Lemma filter_sorted (h : CachedFile -> bool) (l : list CachedFile) :
  StronglySorted accessLe l -> StronglySorted accessLe (filter h l).
Proof.
  induction 1 as [|a l Hs IH Ha]; simpl.
  - constructor.
  - destruct (h a); [|assumption]. constructor; [assumption|].
    rewrite Forall_forall in *. intros g Hg. apply Ha.
    apply filter_In in Hg. tauto.
Qed.

(** No scanned file of a well-formed tree has a negative size. *)
Lemma walk_size_nonneg (n : node) :
  forall dir f, wfb n = true -> In f (walk dir n) -> 0 <= size f.
Proof.
  induction n as [st s rm | r es IH |] using node_ind; intros dir f Hwf Hin;
    try contradiction.
  destruct r; [|contradiction].
  rewrite walk_Dir in Hin. apply in_flat_map in Hin.
  destruct Hin as [[k c] [He Hf]].
  rewrite Forall_forall in IH. specialize (IH _ He). simpl in IH.
  simpl in Hwf. apply andb_prop in Hwf. destruct Hwf as [_ Hall].
  rewrite forallb_forall in Hall. specialize (Hall _ He). simpl in Hall.
  unfold entryFiles in Hf. simpl in Hf.
  destruct c as [st s rm | r' es' |].
  - destruct s; simpl in Hf; [|contradiction].
    destruct Hf as [<-|[]]. simpl. simpl in Hall. now apply Z.leb_le.
  - eapply IH; eassumption.
  - contradiction.
Qed.

Lemma getAllFiles_size_nonneg (fs : node) (root : fpath) (f : CachedFile) :
  wfb fs = true -> In f (getAllFiles fs root) -> 0 <= size f.
Proof.
  unfold getAllFiles. intros Hwf Hin.
  destruct (lookup fs root) as [n|] eqn:Hl; [|contradiction].
  eapply walk_size_nonneg; [|eassumption]. eapply wfb_lookup; eassumption.
Qed.

(** * The run, seen from outside *)

Lemma expired_true (config : CleanupConfig) (now : Z) (f : CachedFile) :
  expired config now f = true <-> now - modTime f > ttlMs config.
Proof. unfold expired. rewrite Z.gtb_ltb, Z.ltb_lt. lia. Qed.

Lemma expired_false (config : CleanupConfig) (now : Z) (f : CachedFile) :
  expired config now f = false <-> now - modTime f <= ttlMs config.
Proof. unfold expired. rewrite Z.gtb_ltb, Z.ltb_ge. lia. Qed.

Lemma report_spec (config : CleanupConfig) (now : Z) (fs : node) :
  wfb fs = true ->
  report config now fs =
    addLru
      (addExpired emptyResult
         (ttlDeleted config now (deletable fs) (inventory config fs))
         (ttlFailed config now (deletable fs) (inventory config fs)))
      (filter (fun f => deletable fs (path f)) (attempts config now fs))
      (filter (fun f => negb (deletable fs (path f)))
         (attempts config now fs)).
Proof.
  intros Hwf. destruct (runCleanup_spec config now fs Hwf) as [fs' [E _]].
  unfold report. rewrite E. reflexivity.
Qed.

Lemma cleaned_spec (config : CleanupConfig) (now : Z) (fs : node) :
  wfb fs = true ->
  Inv (cacheDirectory config) (deletable fs) (cleaned config now fs)
    (removePaths
       (map path (ttlDeleted config now (deletable fs) (inventory config fs))
        ++ map path (filter (fun f => deletable fs (path f))
                       (attempts config now fs)))
       (inventory config fs)).
Proof.
  intros Hwf. destruct (runCleanup_spec config now fs Hwf) as [fs' [E HI]].
  unfold cleaned. rewrite E. exact HI.
Qed.

Lemma afterTtl_spec (config : CleanupConfig) (now : Z) (fs : node) :
  wfb fs = true ->
  remainingAfterTtl config now fs = ttlSurvivors config now (inventory config fs)
  /\ Inv (cacheDirectory config) (deletable fs) (afterTtl config now fs)
       (removePaths
          (map path (ttlDeleted config now (deletable fs) (inventory config fs)))
          (inventory config fs)).
Proof.
  intros Hwf.
  assert (Inv (cacheDirectory config) (deletable fs) fs (inventory config fs))
    as HI0 by (constructor; auto).
  destruct (ttlLoop_spec config now (cacheDirectory config) (deletable fs)
              (inventory config fs) fs (inventory config fs) emptyResult []
              HI0 (fun f H => H) (getAllFiles_NoDup fs _ Hwf))
    as [fs1 [E HI]].
  unfold remainingAfterTtl, afterTtl. rewrite E. simpl. now split.
Qed.

Lemma afterTtl_run (config : CleanupConfig) (now : Z) (fs : node) :
  wfb fs = true ->
  ttlLoop config now (inventory config fs) fs emptyResult [] =
    (afterTtl config now fs,
     addExpired emptyResult
       (ttlDeleted config now (deletable fs) (inventory config fs))
       (ttlFailed config now (deletable fs) (inventory config fs)),
     ttlSurvivors config now (inventory config fs)).
Proof.
  intros Hwf.
  assert (Inv (cacheDirectory config) (deletable fs) fs (inventory config fs))
    as HI0 by (constructor; auto).
  destruct (ttlLoop_spec config now (cacheDirectory config) (deletable fs)
              (inventory config fs) fs (inventory config fs) emptyResult []
              HI0 (fun f H => H) (getAllFiles_NoDup fs _ Hwf))
    as [fs1 [E HI]].
  unfold afterTtl. rewrite E. reflexivity.
Qed.

Lemma in_ttlDeleted config now d files f :
  In f (ttlDeleted config now d files) <->
  In f files /\ expired config now f = true /\ d (path f) = true.
Proof. unfold ttlDeleted. rewrite filter_In, andb_true_iff. tauto. Qed.

(** A scanned file that did not expire shares its path with no deleted
    expired file. *)
Lemma survivor_not_deleted config now fs f :
  wfb fs = true -> In f (inventory config fs) ->
  expired config now f = false ->
  ~ In (path f)
      (map path (ttlDeleted config now (deletable fs) (inventory config fs))).
Proof.
  intros Hwf Hin He Hp. apply in_map_iff in Hp. destruct Hp as [g [Eg Hg]].
  apply in_ttlDeleted in Hg. destruct Hg as [Hg [Hge _]].
  assert (g = f) as ->.
  { eapply NoDup_path_inj; try eassumption.
    now apply getAllFiles_NoDup. }
  congruence.
Qed.

(** * Properties of the run and of the statistics *)

(** C1. Every scanned file whose age [now - modTime] exceeds [ttlMs] is
    handed to [safeDelete] in step 1: when [unlink] succeeds on it, its path
    is in [expiredFiles] and is no file any more once step 1 is over; when
    [unlink] fails, the failure is in [errors].  Every scanned file whose
    age is at most [ttlMs] is still a file of the cache once step 1 is over,
    still scanned as it was, is in [remainingFiles], and is not listed in
    [expiredFiles]. *)
Theorem C1_ttl_phase (config : CleanupConfig) (now : Z) (fs : node) :
  wfb fs = true ->
  forall f, In f (inventory config fs) ->
    (now - modTime f > ttlMs config ->
       (deletable fs (path f) = true ->
          In (path f) (expiredFiles (report config now fs)) /\
          is_file (afterTtl config now fs) (path f) = false) /\
       (deletable fs (path f) = false ->
          In (expiredError f) (errors (report config now fs)))) /\
    (now - modTime f <= ttlMs config ->
       is_file (afterTtl config now fs) (path f) = true /\
       In f (getAllFiles (afterTtl config now fs) (cacheDirectory config)) /\
       In f (remainingAfterTtl config now fs) /\
       ~ In (path f) (expiredFiles (report config now fs))).
Proof.
  intros Hwf f Hin.
  destruct (afterTtl_spec config now fs Hwf) as [Hrem [Hwf1 Hscan _]].
  pose proof (afterTtl_run config now fs Hwf) as Hrun.
  destruct (ttlLoop_gone _ _ _ _ _ _ _ _ _ Hwf Hrun) as [_ [_ Hgone]].
  rewrite Hrem, (report_spec config now fs Hwf). simpl. simpl in Hgone.
  split.
  - intros Hage. apply expired_true in Hage. split.
    + intros Hd.
      assert (In (path f)
                (map path (ttlDeleted config now (deletable fs)
                             (inventory config fs)))) as Hp.
      { apply in_map. apply in_ttlDeleted. auto. }
      split; [exact Hp|].
      destruct (Hgone _ Hp) as [[]|Hno]. unfold is_file. now rewrite Hno.
    + intros Hd. apply in_or_app. left. apply in_map.
      unfold ttlFailed. apply filter_In. split; [assumption|].
      now rewrite Hage, Hd.
  - intros Hage. apply expired_false in Hage.
    pose proof (survivor_not_deleted config now fs f Hwf Hin Hage) as Hn.
    assert (In f (getAllFiles (afterTtl config now fs)
                    (cacheDirectory config))) as Hstill.
    { rewrite Hscan. apply removePaths_In. now split. }
    repeat split.
    + eapply getAllFiles_is_file; eassumption.
    + exact Hstill.
    + unfold ttlSurvivors. apply filter_In. split; [assumption|].
      now rewrite Hage.
    + exact Hn.
Qed.

Lemma filter_all {A : Type} (h : A -> bool) (l : list A) :
  (forall x, In x l -> h x = true) -> filter h l = l.
Proof.
  induction l as [|a l IH]; simpl; intros H.
  - reflexivity.
  - rewrite (H a) by now left. f_equal. apply IH. intros x Hx. apply H.
    now right.
Qed.

Lemma filter_none {A : Type} (h : A -> bool) (l : list A) :
  (forall x, In x l -> h x = false) -> filter h l = [].
Proof.
  induction l as [|a l IH]; simpl; intros H.
  - reflexivity.
  - rewrite (H a) by now left. apply IH. intros x Hx. apply H. now right.
Qed.

Lemma filter_nil_none {A : Type} (h : A -> bool) (l : list A) (x : A) :
  filter h l = [] -> In x l -> h x = false.
Proof.
  intros E Hx. destruct (h x) eqn:Hh; [|reflexivity].
  assert (In x (filter h l)) as Hin by (apply filter_In; now split).
  rewrite E in Hin. contradiction.
Qed.

Lemma no_elements {A : Type} (l : list A) :
  (forall x, ~ In x l) -> l = [].
Proof.
  destruct l as [|a l]; [reflexivity|]. intros H. exfalso.
  apply (H a). now left.
Qed.

Lemma removePaths_id (ps : list fpath) (T : list CachedFile) :
  (forall g, In g T -> ~ In (path g) ps) -> removePaths ps T = T.
Proof.
  revert T. induction ps as [|p ps IH]; intros T H; simpl.
  - reflexivity.
  - rewrite filter_notPath_id.
    + apply IH. intros g Hg Hin. apply (H g Hg). now right.
    + intros g Hg E. apply (H g Hg). now left.
Qed.

Lemma filter_NoDup_path (h : CachedFile -> bool) (l : list CachedFile) :
  NoDup (map path l) -> NoDup (map path (filter h l)).
Proof.
  induction l as [|a l IH]; simpl; intros H; [constructor|].
  inversion H as [|? ? Hn Hnd]; subst.
  destruct (h a); simpl; [|now apply IH].
  constructor; [|now apply IH].
  intros Hin. apply Hn. apply in_map_iff in Hin.
  destruct Hin as [g [Eg Hg]]. apply filter_In in Hg.
  rewrite <- Eg. apply in_map. tauto.
Qed.

Lemma size_le_total (l : list CachedFile) (f : CachedFile) :
  (forall g, In g l -> 0 <= size g) -> In f l -> size f <= totalSize l.
Proof.
  induction l as [|a l IH]; simpl; intros Hnn Hin; [contradiction|].
  rewrite totalSize_cons.
  assert (0 <= totalSize l) as Ht.
  { clear - Hnn. induction l as [|b l IHl]; [unfold totalSize; simpl; lia|].
    rewrite totalSize_cons.
    assert (0 <= size b) by (apply Hnn; right; now left).
    assert (0 <= totalSize l); [|lia].
    apply IHl. intros g [Hg|Hg]; apply Hnn; [now left | right; now right]. }
  destruct Hin as [->|Hin].
  - lia.
  - assert (0 <= size a) by (apply Hnn; now left).
    assert (size f <= totalSize l); [|lia].
    apply IH; [|assumption]. intros g Hg. apply Hnn. now right.
Qed.

Section RunFacts.

Variable config : CleanupConfig.
Variable now : Z.
Variable fs : node.
Hypothesis Hwf : wfb fs = true.

Let files := inventory config fs.
Let d := deletable fs.
Let S := ttlSurvivors config now files.
Let A := attempts config now fs.
Let D1 := ttlDeleted config now d files.
Let D2 := filter (fun f => d (path f)) A.

Lemma survivors_NoDup : NoDup (map path S).
Proof. apply filter_NoDup_path. now apply getAllFiles_NoDup. Qed.

Lemma attempts_In f : In f A -> In f S.
Proof.
  intros H. apply lruAttempts_In in H.
  now apply (proj1 (sortByAccess_In S f)) in H.
Qed.

Lemma attempts_NoDup : NoDup (map path A).
Proof.
  destruct (lruAttempts_prefix d (maxSizeBytes config) (sortByAccess S)
              (totalSize S)) as [rest E].
  pose proof (sortByAccess_NoDup S survivors_NoDup) as H.
  rewrite E, map_app in H. now apply NoDup_app_remove_r in H.
Qed.

(** The files left by the run that had not expired are the survivors of
    step 1 without those step 2 deleted. *)
Lemma cleaned_survivors :
  ttlSurvivors config now (getAllFiles (cleaned config now fs)
                             (cacheDirectory config))
  = removePaths (map path D2) S.
Proof.
  destruct (cleaned_spec config now fs Hwf) as [_ Hscan _].
  rewrite Hscan. unfold ttlSurvivors.
  rewrite removePaths_filter, removePaths_app.
  f_equal. apply removePaths_id. intros g Hg.
  apply filter_In in Hg. destruct Hg as [Hg He].
  apply negb_true_iff in He.
  now apply survivor_not_deleted.
Qed.

Lemma survivors_split :
  totalSize S = totalSize D2 + totalSize (removePaths (map path D2) S).
Proof.
  rewrite <- totalSize_app. apply totalSize_perm. apply removePaths_perm.
  - exact survivors_NoDup.
  - apply filter_NoDup_path, attempts_NoDup.
  - intros f Hf. apply filter_In in Hf. apply attempts_In. tauto.
Qed.

(** When step 2 leaves the survivors over the limit, it has tried every
    one of them, and those left are the ones [unlink] refuses. *)
Lemma over_limit_all_tried :
  totalSize (removePaths (map path D2) S) > maxSizeBytes config ->
  A = sortByAccess S.
Proof.
  intros Hover. pose proof survivors_split as Hsplit.
  destruct (lruAttempts_stop d (maxSizeBytes config) (sortByAccess S)
              (totalSize S)) as [Hall|Hle].
  - exact Hall.
  - fold d in Hle. unfold D2, A, attempts in Hsplit. fold files S d in Hsplit.
    unfold D2, A, attempts in Hover. fold files S d in Hover. lia.
Qed.

Lemma over_limit_all_refused :
  totalSize (removePaths (map path D2) S) > maxSizeBytes config ->
  forall g, In g (removePaths (map path D2) S) ->
  In g A /\ d (path g) = false.
Proof.
  intros Hover g Hg. apply removePaths_In in Hg. destruct Hg as [HgS Hn].
  assert (In g A) as HgA.
  { rewrite (over_limit_all_tried Hover). now apply sortByAccess_In. }
  split; [exact HgA|].
  destruct (d (path g)) eqn:Hd; [|reflexivity].
  exfalso. apply Hn. apply in_map. apply filter_In. now split.
Qed.

End RunFacts.

(** The errors of a run: one message per failed deletion. *)
Lemma report_errors (config : CleanupConfig) (now : Z) (fs : node) :
  wfb fs = true ->
  errors (report config now fs) =
    map expiredError (ttlFailed config now (deletable fs) (inventory config fs))
    ++ map lruError
         (filter (fun f => negb (deletable fs (path f)))
            (attempts config now fs)).
Proof. intros Hwf. rewrite report_spec by assumption. reflexivity. Qed.

(** With no error in the report, what the run leaves in the cache is the
    survivors of step 1 that step 2 did not delete, and either they fit in
    the limit or there are none. *)
Lemma size_or_exhausted (config : CleanupConfig) (now : Z) (fs : node) :
  wfb fs = true -> errors (report config now fs) = [] ->
  getAllFiles (cleaned config now fs) (cacheDirectory config) =
    removePaths
      (map path (filter (fun f => deletable fs (path f))
                   (attempts config now fs)))
      (ttlSurvivors config now (inventory config fs)) /\
  (totalSize (getAllFiles (cleaned config now fs) (cacheDirectory config))
     <= maxSizeBytes config \/
   getAllFiles (cleaned config now fs) (cacheDirectory config) = []).
Proof.
  intros Hwf Herr. rewrite report_errors in Herr by assumption.
  apply app_eq_nil in Herr. destruct Herr as [HF1 HF2].
  apply map_eq_nil in HF1, HF2.
  assert (getAllFiles (cleaned config now fs) (cacheDirectory config) =
          removePaths
            (map path (filter (fun f => deletable fs (path f))
                         (attempts config now fs)))
            (ttlSurvivors config now (inventory config fs))) as Hrest.
  { rewrite <- cleaned_survivors by assumption.
    symmetry. apply filter_all. intros g Hg.
    destruct (cleaned_spec config now fs Hwf) as [_ Hscan _].
    rewrite Hscan in Hg. apply removePaths_In in Hg. destruct Hg as [Hg Hn].
    apply negb_true_iff. destruct (expired config now g) eqn:He; [|reflexivity].
    exfalso. apply Hn. apply in_or_app. left. apply in_map.
    apply in_ttlDeleted. repeat split; try assumption.
    pose proof (filter_nil_none _ _ g HF1 Hg) as Hb. simpl in Hb.
    rewrite He in Hb. simpl in Hb. now apply negb_false_iff in Hb. }
  split; [exact Hrest|]. rewrite Hrest.
  destruct (Z_le_gt_dec
              (totalSize
                 (removePaths
                    (map path (filter (fun f => deletable fs (path f))
                                 (attempts config now fs)))
                    (ttlSurvivors config now (inventory config fs))))
              (maxSizeBytes config)) as [Hle|Hgt]; [now left|].
  right. apply no_elements. intros g Hg.
  destruct (over_limit_all_refused config now fs Hwf Hgt g Hg) as [HgA Hd].
  pose proof (filter_nil_none _ _ g HF2 HgA) as Hb. simpl in Hb.
  rewrite Hd in Hb. discriminate.
Qed.

(** C2. When every attempted deletion of a run succeeded (the report has
    no error), the files left in the cache are survivors of step 1, and
    either their total size is at most [maxSizeBytes] or none is left. *)
Theorem C2_within_limit_or_exhausted (config : CleanupConfig) (now : Z)
    (fs : node) :
  wfb fs = true -> errors (report config now fs) = [] ->
  (forall f,
     In f (getAllFiles (cleaned config now fs) (cacheDirectory config)) ->
     In f (remainingAfterTtl config now fs)) /\
  (totalSize (getAllFiles (cleaned config now fs) (cacheDirectory config))
     <= maxSizeBytes config \/
   getAllFiles (cleaned config now fs) (cacheDirectory config) = []).
Proof.
  intros Hwf Herr.
  destruct (size_or_exhausted config now fs Hwf Herr) as [Hrest Hor].
  split; [|exact Hor].
  intros f Hf. rewrite Hrest in Hf. apply removePaths_In in Hf.
  destruct (afterTtl_spec config now fs Hwf) as [Hrem _].
  rewrite Hrem. tauto.
Qed.

(** C4, as the code has it.  With [maxSizeBytes = 0] and no failed
    deletion, every file the run leaves in the cache has size 0: each
    scanned file of positive size is gone, whichever step deleted it. *)
Theorem C4_zero_limit_positive_sizes_deleted (config : CleanupConfig)
    (now : Z) (fs : node) :
  wfb fs = true -> maxSizeBytes config = 0 ->
  errors (report config now fs) = [] ->
  (forall f,
     In f (getAllFiles (cleaned config now fs) (cacheDirectory config)) ->
     size f = 0) /\
  (forall f, In f (inventory config fs) -> 0 < size f ->
     is_file (cleaned config now fs) (path f) = false).
Proof.
  intros Hwf Hmax Herr.
  destruct (size_or_exhausted config now fs Hwf Herr) as [Hrest Hor].
  assert (forall f,
            In f (getAllFiles (cleaned config now fs) (cacheDirectory config))
            -> size f = 0) as Hzero.
  { intros f Hf. destruct Hor as [Hle|Hnil]; [|rewrite Hnil in Hf; contradiction].
    destruct (cleaned_spec config now fs Hwf) as [Hwf' _ _].
    pose proof (getAllFiles_size_nonneg _ _ f Hwf' Hf) as Hnn.
    assert (size f <=
            totalSize (getAllFiles (cleaned config now fs)
                         (cacheDirectory config))) as Hsz.
    { apply size_le_total; [|assumption].
      intros g Hg. eapply getAllFiles_size_nonneg; eassumption. }
    lia. }
  split; [exact Hzero|].
  intros f Hin Hpos.
  destruct (cleaned_spec config now fs Hwf) as [_ Hscan _].
  set (ps := map path (ttlDeleted config now (deletable fs)
                         (inventory config fs))
             ++ map path (filter (fun f => deletable fs (path f))
                            (attempts config now fs))) in *.
  destruct (in_dec (list_eq_dec string_dec) (path f) ps) as [Hp|Hp].
  - unfold is_file. rewrite (runCleanup_gone config now fs (path f) Hwf);
      [reflexivity|].
    rewrite (report_spec config now fs Hwf). simpl.
    apply in_app_or in Hp. exact Hp.
  - exfalso.
    assert (In f (getAllFiles (cleaned config now fs)
                    (cacheDirectory config))) as Hf.
    { rewrite Hscan. apply removePaths_In. now split. }
    apply Hzero in Hf. lia.
Qed.

(** C5. The paths of [lruFiles], in the order the run deleted them, are the
    paths of survivors of step 1 listed in non-decreasing [accessTime]. *)
Theorem C5_lru_order (config : CleanupConfig) (now : Z) (fs : node) :
  wfb fs = true ->
  exists ds : list CachedFile,
    lruFiles (report config now fs) = map path ds /\
    StronglySorted accessLe ds /\
    (forall f, In f ds -> In f (remainingAfterTtl config now fs)).
Proof.
  intros Hwf.
  exists (filter (fun f => deletable fs (path f)) (attempts config now fs)).
  rewrite report_spec by assumption. simpl.
  split; [reflexivity|]. split.
  - apply filter_sorted. unfold attempts.
    apply lruAttempts_sorted, sortByAccess_sorted.
  - intros f Hf. apply filter_In in Hf. destruct Hf as [Hf _].
    apply attempts_In in Hf.
    destruct (afterTtl_spec config now fs Hwf) as [Hrem _]. now rewrite Hrem.
Qed.

(** C6. A second run on the file system the first run left, with the same
    policy and the same clock, deletes nothing. *)
Theorem C6_idempotent (config : CleanupConfig) (now : Z) (fs : node) :
  wfb fs = true ->
  let r2 := report config now (cleaned config now fs) in
  filesDeleted r2 = 0 /\ bytesFreed r2 = 0 /\
  expiredFiles r2 = [] /\ lruFiles r2 = [].
Proof.
  intros Hwf r2.
  destruct (cleaned_spec config now fs Hwf) as [Hwf1 Hscan Hdel].
  set (fs1 := cleaned config now fs) in *.
  assert (ttlDeleted config now (deletable fs1) (inventory config fs1) = [])
    as HD1.
  { apply filter_none. intros g Hg.
    destruct (expired config now g) eqn:He; [|reflexivity]. simpl.
    unfold inventory in Hg. rewrite Hscan in Hg. rewrite (Hdel g Hg).
    apply removePaths_In in Hg. destruct Hg as [Hg Hn].
    destruct (deletable fs (path g)) eqn:Hd; [|reflexivity].
    exfalso. apply Hn. apply in_or_app. left. apply in_map.
    apply in_ttlDeleted. auto. }
  assert (filter (fun f => deletable fs1 (path f)) (attempts config now fs1)
          = []) as HD2.
  { pose proof (cleaned_survivors config now fs Hwf) as HS. fold fs1 in HS.
    destruct (Z_le_gt_dec
                (totalSize (ttlSurvivors config now (inventory config fs1)))
                (maxSizeBytes config)) as [Hle|Hgt].
    - unfold attempts. now rewrite lruAttempts_within.
    - apply filter_none. intros g Hg. apply attempts_In in Hg.
      assert (In g (inventory config fs1)) as Hg1.
      { unfold ttlSurvivors in Hg. apply filter_In in Hg. tauto. }
      unfold inventory in HS, Hgt, Hg, Hg1. rewrite HS in Hgt, Hg.
      rewrite Hscan in Hg1. rewrite (Hdel g Hg1).
      now destruct (over_limit_all_refused config now fs Hwf Hgt g Hg). }
  unfold r2. rewrite report_spec by assumption. rewrite HD1, HD2. simpl.
  unfold totalSize. simpl. repeat split; reflexivity.
Qed.

(** What a failed deletion leaves in [errors]. *)
Lemma expiredError_not_lruError (f g : CachedFile) :
  expiredError f <> lruError g.
Proof. unfold expiredError, lruError. simpl. discriminate. Qed.

(** C7. The report has one error per failed deletion and nothing else: the
    message of step 1 for every expired file [unlink] refuses, then the
    message of step 2 for every attempted file [unlink] refuses; a message
    is the phase's own prefix followed by the path.  No failure stops a
    loop: every expired file is in [expiredFiles] or in [errors], every
    attempted file is in [lruFiles] or in [errors], and the attempts of
    step 2 end only when the ordered survivors are exhausted or the running
    size is within the limit. *)
Theorem C7_failures_recorded (config : CleanupConfig) (now : Z) (fs : node) :
  wfb fs = true ->
  let r := report config now fs in
  let refused f := negb (deletable fs (path f)) in
  let deleted := filter (fun f => deletable fs (path f))
                   (attempts config now fs) in
  errors r =
    map (fun f =>
           ("Failed to delete expired file: " ++ path_str (path f))%string)
      (filter (fun f => expired config now f && refused f)
         (inventory config fs))
    ++ map (fun f =>
              ("Failed to delete LRU file: " ++ path_str (path f))%string)
         (filter refused (attempts config now fs)) /\
  (forall f, In f (inventory config fs) -> expired config now f = true ->
     In (path f) (expiredFiles r) \/ In (expiredError f) (errors r)) /\
  (forall f, In f (attempts config now fs) ->
     In (path f) (lruFiles r) \/ In (lruError f) (errors r)) /\
  (exists rest,
     sortByAccess (remainingAfterTtl config now fs) =
       attempts config now fs ++ rest /\
     (rest = [] \/
      totalSize (remainingAfterTtl config now fs) - totalSize deleted
        <= maxSizeBytes config)) /\
  (forall f g, expiredError f <> lruError g).
Proof.
  intros Hwf r refused deleted.
  destruct (afterTtl_spec config now fs Hwf) as [Hrem _].
  unfold r. rewrite report_errors by assumption.
  rewrite report_spec by assumption. simpl. rewrite Hrem.
  split; [reflexivity|]. split; [|split; [|split]].
  - intros f Hin He. destruct (deletable fs (path f)) eqn:Hd.
    + left. apply in_map. apply in_ttlDeleted. auto.
    + right. apply in_or_app. left. apply in_map. apply filter_In.
      split; [assumption|]. now rewrite He, Hd.
  - intros f Hin. destruct (deletable fs (path f)) eqn:Hd.
    + left. apply in_map. apply filter_In. now split.
    + right. apply in_or_app. right. apply in_map. apply filter_In.
      split; [assumption|]. now rewrite Hd.
  - unfold deleted, attempts.
    set (S := ttlSurvivors config now (inventory config fs)).
    destruct (lruAttempts_prefix (deletable fs) (maxSizeBytes config)
                (sortByAccess S) (totalSize S)) as [rest E].
    exists rest. split; [exact E|].
    destruct (lruAttempts_stop (deletable fs) (maxSizeBytes config)
                (sortByAccess S) (totalSize S)) as [Hall|Hle].
    + left. rewrite Hall in E.
      rewrite <- (app_nil_r (sortByAccess S)) in E at 1.
      apply app_inv_head in E. now symmetry.
    + now right.
  - apply expiredError_not_lruError.
Qed.

Lemma recordedSize_path (files : list CachedFile) (f : CachedFile) :
  NoDup (map path files) -> In f files ->
  recordedSize files (path f) = size f.
Proof.
  intros Hnd Hin. unfold recordedSize.
  destruct (find (fun g => fpath_eqb (path g) (path f)) files) as [g|] eqn:E.
  - apply find_some in E. destruct E as [Hg Hp]. apply fpath_eqb_eq in Hp.
    now rewrite (NoDup_path_inj files g f Hnd Hg Hin Hp).
  - pose proof (find_none _ _ E f Hin) as Hp. simpl in Hp.
    rewrite fpath_eqb_refl in Hp. discriminate.
Qed.

Lemma sumZ_app (l1 l2 : list Z) : sumZ (l1 ++ l2) = sumZ l1 + sumZ l2.
Proof. induction l1 as [|a l1 IH]; simpl; lia. Qed.

Lemma sum_recordedSize (files D : list CachedFile) :
  NoDup (map path files) -> (forall f, In f D -> In f files) ->
  sumZ (map (recordedSize files) (map path D)) = totalSize D.
Proof.
  intros Hnd. induction D as [|f D IH]; intros Hsub; simpl.
  - reflexivity.
  - rewrite totalSize_cons, recordedSize_path, IH; auto.
    + intros g Hg. apply Hsub. now right.
    + apply Hsub. now left.
Qed.

(** C10. In the report of a run, [filesDeleted] is the number of paths in
    [expiredFiles] and [lruFiles] together, [bytesFreed] is the sum of the
    sizes the inventory records for those paths, no path is listed twice,
    and none is in both lists. *)
Theorem C10_report_consistent (config : CleanupConfig) (now : Z) (fs : node) :
  wfb fs = true ->
  let r := report config now fs in
  filesDeleted r =
    Z.of_nat (List.length (expiredFiles r) + List.length (lruFiles r)) /\
  bytesFreed r =
    sumZ (map (recordedSize (inventory config fs))
            (expiredFiles r ++ lruFiles r)) /\
  NoDup (expiredFiles r ++ lruFiles r) /\
  (forall p, In p (expiredFiles r) -> ~ In p (lruFiles r)).
Proof.
  intros Hwf r. unfold r. rewrite report_spec by assumption. simpl.
  pose proof (getAllFiles_NoDup fs (cacheDirectory config) Hwf) as Hnd.
  fold (inventory config fs) in Hnd.
  set (D1 := ttlDeleted config now (deletable fs) (inventory config fs)).
  set (D2 := filter (fun f => deletable fs (path f)) (attempts config now fs)).
  assert (forall f, In f D1 -> In f (inventory config fs)) as HD1.
  { intros f Hf. apply in_ttlDeleted in Hf. tauto. }
  assert (forall f, In f D2 ->
            In f (inventory config fs) /\ expired config now f = false)
    as HD2.
  { intros f Hf. apply filter_In in Hf. destruct Hf as [Hf _].
    apply attempts_In in Hf. apply filter_In in Hf.
    destruct Hf as [Hf He]. now apply negb_true_iff in He. }
  assert (forall p, In p (map path D1) -> ~ In p (map path D2)) as Hdisj.
  { intros p H1 H2. apply in_map_iff in H2. destruct H2 as [g [Eg Hg]].
    destruct (HD2 g Hg) as [Hgi Hge]. subst p.
    now apply (survivor_not_deleted config now fs g Hwf Hgi Hge). }
  repeat split.
  - rewrite !length_map. lia.
  - rewrite map_app, sumZ_app.
    rewrite (sum_recordedSize _ D1 Hnd HD1).
    rewrite (sum_recordedSize _ D2 Hnd (fun f Hf => proj1 (HD2 f Hf))).
    lia.
  - apply NoDup_app.
    + apply filter_NoDup_path, Hnd.
    + apply filter_NoDup_path, attempts_NoDup, Hwf.
    + intros p H1 H2. exact (Hdisj p H1 H2).
  - exact Hdisj.
Qed.

(** [readdir] rejecting, or listing nothing, gives an empty inventory. *)
Lemma getAllFiles_no_entries (fs : node) (dir : fpath) :
  readdir fs dir = None \/ readdir fs dir = Some [] ->
  getAllFiles fs dir = [].
Proof.
  unfold readdir, getAllFiles.
  destruct (lookup fs dir) as [[st s rm | r es |]|]; try reflexivity.
  destruct r; [|reflexivity].
  intros [H|H]; [discriminate|].
  inversion H as [Hes]. apply map_eq_nil in Hes. now subst.
Qed.

(** C8. When the cache root is missing, is unreadable, or is an empty
    directory, the inventory is empty, [runCleanup] leaves the file system
    as it is and returns the report with no deletion and no error, and
    [getCacheStats] returns zero files, zero bytes and no oldest or newest
    file. *)
Theorem C8_missing_or_empty_root (config : CleanupConfig) (now : Z)
    (fs : node) :
  lookup fs (cacheDirectory config) = None \/
  (exists es, lookup fs (cacheDirectory config) = Some (Dir false es)) \/
  lookup fs (cacheDirectory config) = Some (Dir true []) ->
  getAllFiles fs (cacheDirectory config) = [] /\
  runCleanup config now fs =
    (fs, {| filesDeleted := 0; bytesFreed := 0; expiredFiles := [];
            lruFiles := []; errors := [] |}) /\
  getCacheStats now fs (cacheDirectory config) =
    {| totalFiles := 0; totalSizeBytes := 0; totalSizeGb := 0%Q;
       oldestFile := None; newestFile := None |}.
Proof.
  intros H.
  assert (getAllFiles fs (cacheDirectory config) = []) as E.
  { apply getAllFiles_no_entries. unfold readdir.
    destruct H as [H|[[es H]|H]]; rewrite H; auto. }
  unfold runCleanup, getCacheStats. rewrite E. simpl. auto.
Qed.

Lemma firstOldest_step (pre : list CachedFile) (o file : CachedFile) :
  firstOldest pre o ->
  firstOldest (pre ++ [file])
    (if modTime file <? modTime o then file else o).
Proof.
  intros [l1 [l2 [E [H1 H2]]]].
  destruct (Z.ltb_spec (modTime file) (modTime o)) as [Hlt|Hge].
  - exists pre, []. split; [reflexivity|]. split; [|intros g []].
    intros g Hg. rewrite E in Hg. apply in_app_or in Hg.
    destruct Hg as [Hg|[<-|Hg]].
    + specialize (H1 g Hg). lia.
    + assumption.
    + specialize (H2 g Hg). lia.
  - exists l1, (l2 ++ [file]). split.
    + rewrite E, <- app_assoc. reflexivity.
    + split; [assumption|]. intros g Hg. apply in_app_or in Hg.
      destruct Hg as [Hg|[<-|[]]]; [now apply H2 | assumption].
Qed.

Lemma firstNewest_step (pre : list CachedFile) (n file : CachedFile) :
  firstNewest pre n ->
  firstNewest (pre ++ [file])
    (if modTime file >? modTime n then file else n).
Proof.
  intros [l1 [l2 [E [H1 H2]]]]. rewrite Z.gtb_ltb.
  destruct (Z.ltb_spec (modTime n) (modTime file)) as [Hlt|Hge].
  - exists pre, []. split; [reflexivity|]. split; [|intros g []].
    intros g Hg. rewrite E in Hg. apply in_app_or in Hg.
    destruct Hg as [Hg|[<-|Hg]].
    + specialize (H1 g Hg). lia.
    + assumption.
    + specialize (H2 g Hg). lia.
  - exists l1, (l2 ++ [file]). split.
    + rewrite E, <- app_assoc. reflexivity.
    + split; [assumption|]. intros g Hg. apply in_app_or in Hg.
      destruct Hg as [Hg|[<-|[]]]; [now apply H2 | assumption].
Qed.

Lemma extremesLoop_spec (rest : list CachedFile) :
  forall pre o n, firstOldest pre o -> firstNewest pre n ->
  firstOldest (pre ++ rest) (fst (extremesLoop rest o n)) /\
  firstNewest (pre ++ rest) (snd (extremesLoop rest o n)).
Proof.
  induction rest as [|file rest IH]; intros pre o n Ho Hn; simpl.
  - rewrite app_nil_r. now split.
  - replace (pre ++ file :: rest) with ((pre ++ [file]) ++ rest)
      by (rewrite <- app_assoc; reflexivity).
    apply IH; [now apply firstOldest_step | now apply firstNewest_step].
Qed.

(** C9. On a non-empty inventory [getCacheStats] reports as [oldestFile]
    the first scanned file of least [modTime] and as [newestFile] the
    first scanned file of greatest [modTime], each with its path and the
    age [now - modTime]. *)
Theorem C9_oldest_newest (now : Z) (fs : node) (dir : fpath) :
  getAllFiles fs dir <> [] ->
  exists o n,
    firstOldest (getAllFiles fs dir) o /\
    firstNewest (getAllFiles fs dir) n /\
    oldestFile (getCacheStats now fs dir) =
      Some {| fa_path := path o; fa_age := now - modTime o |} /\
    newestFile (getCacheStats now fs dir) =
      Some {| fa_path := path n; fa_age := now - modTime n |}.
Proof.
  intros Hne. unfold getCacheStats.
  destruct (getAllFiles fs dir) as [|first tl]; [congruence|].
  assert (firstOldest [first] first) as Ho.
  { exists [], []. repeat split; intros g []. }
  assert (firstNewest [first] first) as Hn.
  { exists [], []. repeat split; intros g []. }
  destruct (extremesLoop_spec tl [first] first first Ho Hn) as [H1 H2].
  simpl in H1, H2. simpl.
  rewrite Z.ltb_irrefl, Z.gtb_ltb, Z.ltb_irrefl.
  destruct (extremesLoop tl first first) as [o n]. simpl in *.
  exists o, n. auto.
Qed.

(** C3, on a cache whose only file is expired and alone in a
    sub-directory.  The run deletes the file and returns with the
    sub-directory still there, empty: step 3 calls [cleanEmptyDirs] on the
    cache root, where the function returns at once.  Called on the emptied
    sub-directory, [cleanEmptyDirs] removes it and stops at the root. *)
Theorem C3_empty_directory_left :
  let fs' := cleaned Sample.policyAB Sample.now Sample.fsSub in
  expiredFiles (report Sample.policyAB Sample.now Sample.fsSub) =
    [Sample.sub ++ ["old"%string]] /\
  readdir fs' Sample.sub = Some [] /\
  readdir (cleanEmptyDirs Sample.sub Sample.root fs') Sample.sub = None /\
  readdir (cleanEmptyDirs Sample.sub Sample.root fs') Sample.root = Some [].
Proof. vm_compute. repeat split. Qed.

(** C4 does not hold of a file of no byte: with [maxSizeBytes = 0] the lone
    empty file survives step 1, no deletion fails, and the file is still in
    the cache after the run. *)
Lemma C4_zero_limit_counterexample :
  let survivor :=
    Sample.record (Sample.root ++ ["empty"%string]) 0 1 1 in
  wfb Sample.fsEmptyFile = true /\
  maxSizeBytes Sample.policyZero = 0 /\
  errors (report Sample.policyZero Sample.now Sample.fsEmptyFile) = [] /\
  remainingAfterTtl Sample.policyZero Sample.now Sample.fsEmptyFile
    = [survivor] /\
  lruFiles (report Sample.policyZero Sample.now Sample.fsEmptyFile) = [] /\
  is_file (cleaned Sample.policyZero Sample.now Sample.fsEmptyFile)
    (path survivor) = true /\
  getAllFiles (cleaned Sample.policyZero Sample.now Sample.fsEmptyFile)
    Sample.root = [survivor].
Proof. vm_compute. repeat split. Qed.

(** * The properties on the sample caches *)

Lemma C1_ttl_phase_witness :
  wfb Sample.fsAB = true /\
  In (Sample.root ++ ["A"%string])
    (expiredFiles (report Sample.policyAB Sample.now Sample.fsAB)) /\
  is_file (afterTtl Sample.policyAB Sample.now Sample.fsAB)
    (Sample.root ++ ["B"%string]) = true.
Proof.
  split; [reflexivity|].
  pose proof (C1_ttl_phase Sample.policyAB Sample.now Sample.fsAB eq_refl)
    as H.
  split.
  - destruct (H (Sample.record (Sample.root ++ ["A"%string]) 100 48 1))
      as [HA _]; [left; reflexivity|].
    destruct HA as [HA _]; [vm_compute; reflexivity|].
    destruct HA as [HA _]; [reflexivity|].
    exact HA.
  - destruct (H (Sample.record (Sample.root ++ ["B"%string]) 100 1 1))
      as [_ HB]; [right; left; reflexivity|].
    destruct HB as [HB _]; [vm_compute; discriminate|].
    exact HB.
Defined.

Lemma C2_within_limit_or_exhausted_witness :
  wfb Sample.fsCAB = true /\
  errors (report Sample.policyCAB Sample.now Sample.fsCAB) = [] /\
  (totalSize (getAllFiles (cleaned Sample.policyCAB Sample.now Sample.fsCAB)
                Sample.root) <= 150 \/
   getAllFiles (cleaned Sample.policyCAB Sample.now Sample.fsCAB)
     Sample.root = []).
Proof.
  split; [reflexivity|]. split; [reflexivity|].
  exact (proj2 (C2_within_limit_or_exhausted Sample.policyCAB Sample.now
                  Sample.fsCAB eq_refl eq_refl)).
Defined.

Lemma C4_zero_limit_positive_sizes_deleted_witness :
  wfb Sample.fsEmptyAndBig = true /\
  errors (report Sample.policyZero Sample.now Sample.fsEmptyAndBig) = [] /\
  is_file (cleaned Sample.policyZero Sample.now Sample.fsEmptyAndBig)
    (Sample.root ++ ["big"%string]) = false.
Proof.
  split; [reflexivity|]. split; [reflexivity|].
  destruct (C4_zero_limit_positive_sizes_deleted Sample.policyZero Sample.now
              Sample.fsEmptyAndBig eq_refl eq_refl eq_refl) as [_ H].
  apply (H (Sample.record (Sample.root ++ ["big"%string]) 100 1 3)).
  - right; left; reflexivity.
  - reflexivity.
Defined.

Lemma C5_lru_order_witness :
  wfb Sample.fsLocked = true /\
  exists ds : list CachedFile,
    lruFiles (report Sample.policyLocked Sample.now Sample.fsLocked)
      = map path ds /\
    StronglySorted accessLe ds /\
    (forall f, In f ds ->
       In f (remainingAfterTtl Sample.policyLocked Sample.now
               Sample.fsLocked)).
Proof.
  split; [reflexivity|].
  exact (C5_lru_order Sample.policyLocked Sample.now Sample.fsLocked eq_refl).
Defined.

Lemma C6_idempotent_witness :
  wfb Sample.fsLocked = true /\
  filesDeleted
    (report Sample.policyLocked Sample.now
       (cleaned Sample.policyLocked Sample.now Sample.fsLocked)) = 0.
Proof.
  split; [reflexivity|].
  exact (proj1 (C6_idempotent Sample.policyLocked Sample.now Sample.fsLocked
                  eq_refl)).
Defined.

Lemma C7_failures_recorded_witness :
  wfb Sample.fsLocked = true /\
  errors (report Sample.policyLocked Sample.now Sample.fsLocked) =
    ["Failed to delete expired file: var/cache/old"%string;
     "Failed to delete LRU file: var/cache/A"%string].
Proof.
  split; [reflexivity|].
  rewrite (proj1 (C7_failures_recorded Sample.policyLocked Sample.now
                    Sample.fsLocked eq_refl)).
  reflexivity.
Defined.

Lemma C8_missing_or_empty_root_witness :
  lookup Sample.fsNoCache Sample.root = None /\
  runCleanup Sample.policyAB Sample.now Sample.fsNoCache =
    (Sample.fsNoCache,
     {| filesDeleted := 0; bytesFreed := 0; expiredFiles := [];
        lruFiles := []; errors := [] |}).
Proof.
  split; [reflexivity|].
  exact (proj1 (proj2 (C8_missing_or_empty_root Sample.policyAB Sample.now
                         Sample.fsNoCache (or_introl eq_refl)))).
Defined.

Lemma C9_oldest_newest_witness :
  exists o n,
    firstOldest (getAllFiles Sample.fsLocked Sample.root) o /\
    firstNewest (getAllFiles Sample.fsLocked Sample.root) n /\
    oldestFile (getCacheStats Sample.now Sample.fsLocked Sample.root) =
      Some {| fa_path := path o; fa_age := Sample.now - modTime o |} /\
    newestFile (getCacheStats Sample.now Sample.fsLocked Sample.root) =
      Some {| fa_path := path n; fa_age := Sample.now - modTime n |}.
Proof.
  apply C9_oldest_newest. vm_compute. discriminate.
Defined.

Lemma C10_report_consistent_witness :
  wfb Sample.fsLocked = true /\
  bytesFreed (report Sample.policyLocked Sample.now Sample.fsLocked) =
    sumZ (map (recordedSize (inventory Sample.policyLocked Sample.fsLocked))
            (expiredFiles
               (report Sample.policyLocked Sample.now Sample.fsLocked)
             ++ lruFiles
                  (report Sample.policyLocked Sample.now Sample.fsLocked))).
Proof.
  split; [reflexivity|].
  exact (proj1 (proj2 (C10_report_consistent Sample.policyLocked Sample.now
                         Sample.fsLocked eq_refl))).
Defined.

(** * Further properties of the file-system calls *)

Lemma shallow_is_file (fs fs' : node) (q : fpath) :
  shallow (lookup fs' q) = shallow (lookup fs q) ->
  is_file fs' q = is_file fs q.
Proof.
  unfold is_file.
  destruct (lookup fs' q) as [[| |]|], (lookup fs q) as [[| |]|]; simpl;
    intros H; try discriminate; reflexivity.
Qed.

Lemma shallow_is_dir (fs fs' : node) (q : fpath) :
  shallow (lookup fs' q) = shallow (lookup fs q) ->
  is_dir fs' q = is_dir fs q.
Proof.
  unfold is_dir.
  destruct (lookup fs' q) as [[| |]|], (lookup fs q) as [[| |]|]; simpl;
    intros H; try discriminate; reflexivity.
Qed.

Lemma shallow_statAt (fs fs' : node) (q : fpath) :
  shallow (lookup fs' q) = shallow (lookup fs q) ->
  statAt fs' q = statAt fs q.
Proof.
  unfold statAt.
  destruct (lookup fs' q) as [[| |]|], (lookup fs q) as [[| |]|]; simpl;
    intros H; try discriminate; try reflexivity.
  now inversion H.
Qed.

(** Removing a node that contains nothing changes no other path: every
    other path resolves to the same file, or to a directory with the same
    permission bit, or to nothing, as before. *)
Lemma remove_at_frame (ok : node -> bool) (p : fpath) :
  (forall c, ok c = true -> forall x rest, lookup c (x :: rest) = None) ->
  forall n n' q, wfb n = true -> remove_at ok n p = Some n' -> q <> p ->
  shallow (lookup n' q) = shallow (lookup n q).
Proof.
  intros Hleaf. induction p as [|x p IH]; intros n n' q Hwf H Hne.
  - discriminate.
  - simpl in H. destruct n as [| r es |]; try discriminate.
    destruct (assoc x es) as [c|] eqn:Ha; [|discriminate].
    pose proof (wfb_assoc _ _ _ _ Hwf Ha) as Hc.
    simpl in Hwf. apply andb_prop in Hwf. destruct Hwf as [Hnd _].
    apply nodupb_NoDup in Hnd.
    destruct q as [|y q].
    { destruct p as [|z p].
      - destruct (ok c); [|discriminate]. now inversion H.
      - destruct (remove_at ok c (z :: p)); [|discriminate].
        now inversion H. }
    destruct p as [|z p].
    + destruct (ok c) eqn:Hok; [|discriminate]. inversion H; subst.
      change (lookup (Dir r (remove_entry x es)) (y :: q))
        with (match assoc y (remove_entry x es) with
              | Some c0 => lookup c0 q
              | None => None
              end).
      change (lookup (Dir r es) (y :: q))
        with (match assoc y es with
              | Some c0 => lookup c0 q
              | None => None
              end).
      destruct (String.eqb_spec y x) as [E|E].
      * subst y. rewrite assoc_remove_same by assumption. rewrite Ha.
        destruct q as [|w q]; [congruence|].
        now rewrite (Hleaf c Hok).
      * now rewrite assoc_remove_other.
    + destruct (remove_at ok c (z :: p)) as [c'|] eqn:Hr; [|discriminate].
      inversion H; subst.
      change (lookup (Dir r (set_entry x c' es)) (y :: q))
        with (match assoc y (set_entry x c' es) with
              | Some c0 => lookup c0 q
              | None => None
              end).
      change (lookup (Dir r es) (y :: q))
        with (match assoc y es with
              | Some c0 => lookup c0 q
              | None => None
              end).
      destruct (String.eqb_spec y x) as [E|E].
      * subst y. rewrite (assoc_set_same _ _ _ _ Ha), Ha.
        apply (IH c c' q Hc Hr). congruence.
      * now rewrite assoc_set_other.
Qed.

Lemma unlinkable_leaf (c : node) :
  unlinkable c = true -> forall x rest, lookup c (x :: rest) = None.
Proof. destruct c; simpl; intros H x rest; try reflexivity; discriminate. Qed.

Lemma removable_dir_leaf (c : node) :
  removable_dir c = true -> forall x rest, lookup c (x :: rest) = None.
Proof.
  destruct c as [| r [|e es] |]; simpl; intros H x rest;
    try reflexivity; discriminate.
Qed.

(** What [remove_at] removed passed the test. *)
Lemma remove_at_ok (ok : node -> bool) (p : fpath) :
  forall n n', remove_at ok n p = Some n' ->
  exists c, lookup n p = Some c /\ ok c = true.
Proof.
  induction p as [|x p IH]; intros n n' H; simpl in H.
  - discriminate.
  - destruct n as [| r es |]; try discriminate.
    destruct (assoc x es) as [c|] eqn:Ha; [|discriminate].
    destruct p as [|z p].
    + destruct (ok c) eqn:Hok; [|discriminate].
      exists c. simpl. now rewrite Ha.
    + destruct (remove_at ok c (z :: p)) as [c'|] eqn:Hr; [|discriminate].
      destruct (IH _ _ Hr) as [c0 [Hl Hok]]. exists c0.
      change (lookup (Dir r es) (x :: z :: p))
        with (match assoc x es with
              | Some c1 => lookup c1 (z :: p)
              | None => None
              end).
      now rewrite Ha.
Qed.

(** X3. A successful [safeDelete] removes the one path it was given and
    changes nothing else: every other path is a file with the same stats,
    or a directory, exactly when it was before.  A failed one returns the
    file system it received. *)
Theorem X3_safeDelete_frame (fs fs' : node) (p : fpath) (deleted : bool) :
  wfb fs = true -> safeDelete fs p = (fs', deleted) ->
  (deleted = true ->
     lookup fs' p = None /\
     (forall q, q <> p ->
        is_file fs' q = is_file fs q /\ statAt fs' q = statAt fs q) /\
     (forall q, is_dir fs' q = is_dir fs q)) /\
  (deleted = false -> fs' = fs).
Proof.
  unfold safeDelete, unlink. intros Hwf H.
  destruct (remove_at unlinkable fs p) as [fs1|] eqn:Hu; inversion H; subst.
  - split; [|discriminate]. intros _.
    pose proof (remove_at_frame unlinkable p unlinkable_leaf fs fs') as Hfr.
    split; [eapply remove_at_gone; eassumption|]. split.
    + intros q Hne. specialize (Hfr q Hwf Hu Hne).
      split; [now apply shallow_is_file | now apply shallow_statAt].
    + intros q. destruct (list_eq_dec string_dec q p) as [->|Hne].
      * destruct (remove_at_ok _ _ _ _ Hu) as [c [Hl Hok]].
        unfold is_dir. rewrite Hl, (remove_at_gone _ _ _ _ Hwf Hu).
        destruct c; simpl in Hok; try discriminate; reflexivity.
      * apply shallow_is_dir. now apply Hfr.
  - split; [discriminate | reflexivity].
Qed.

(** * Further properties of the scan *)

Lemma walk_sound (n : node) :
  forall dir f, wfb n = true -> In f (walk dir n) ->
  exists rel st rm,
    rel <> [] /\ reachable n rel = true /\
    lookup n rel = Some (File st true rm) /\
    f = recordOf (dir ++ rel) st.
Proof.
  induction n as [st s rm | r es IH |] using node_ind; intros dir f Hwf Hin;
    try contradiction.
  destruct r; [|contradiction].
  rewrite walk_Dir in Hin. apply in_flat_map in Hin.
  destruct Hin as [[k c] [He Hf]].
  rewrite Forall_forall in IH. specialize (IH _ He). simpl in IH.
  pose proof Hwf as Hwf'. simpl in Hwf'. apply andb_prop in Hwf'.
  destruct Hwf' as [Hnd Hall]. apply nodupb_NoDup in Hnd.
  pose proof (assoc_in k c es Hnd He) as Ha.
  pose proof (wfb_assoc _ _ _ _ Hwf Ha) as Hc.
  unfold entryFiles in Hf. simpl in Hf.
  destruct c as [st s rm | r' es' |].
  - destruct s; simpl in Hf; [|contradiction].
    destruct Hf as [<-|[]]. exists [k], st, rm.
    split; [discriminate|]. simpl. rewrite Ha. auto.
  - destruct (IH _ _ Hc Hf) as [rel [st [rm [Hne [Hr [Hl Hf']]]]]].
    exists (k :: rel), st, rm. split; [discriminate|].
    change (reachable (Dir true es) (k :: rel))
      with (match assoc k es with
            | Some c0 => reachable c0 rel
            | None => false
            end).
    change (lookup (Dir true es) (k :: rel))
      with (match assoc k es with
            | Some c0 => lookup c0 rel
            | None => None
            end).
    rewrite Ha. repeat split; try assumption.
    rewrite Hf'. unfold join. now rewrite <- app_assoc.
  - contradiction.
Qed.

Lemma walk_complete (rel : fpath) :
  forall n dir st rm,
  rel <> [] -> reachable n rel = true ->
  lookup n rel = Some (File st true rm) ->
  In (recordOf (dir ++ rel) st) (walk dir n).
Proof.
  induction rel as [|x rest IH]; intros n dir st rm Hne Hr Hl;
    [congruence|].
  simpl in Hr, Hl. destruct n as [| r es |]; try discriminate.
  destruct r; [|discriminate].
  destruct (assoc x es) as [c|] eqn:Ha; [|discriminate].
  rewrite walk_Dir. apply in_flat_map. exists (x, c).
  split; [now apply assoc_Some_in|].
  destruct rest as [|y rest].
  - simpl in Hl. inversion Hl; subst c. unfold entryFiles. simpl. now left.
  - assert (exists r' es', c = Dir r' es') as [r' [es' ->]].
    { destruct c as [| r' es' |]; try discriminate. eauto. }
    change (entryFiles dir (x, Dir r' es'))
      with (walk (join dir x) (Dir r' es')).
    replace (dir ++ x :: y :: rest) with (join dir x ++ y :: rest)
      by (unfold join; now rewrite <- app_assoc).
    apply IH with (rm := rm); [discriminate | assumption | assumption].
Qed.

(** X1. The inventory of a directory is exactly the regular files that lie
    strictly below it, are reached through readable directories only and
    accept [stat]; each is recorded with its own path, size and times. *)
Theorem X1_getAllFiles_exact (fs : node) (dir : fpath) (f : CachedFile) :
  wfb fs = true ->
  (In f (getAllFiles fs dir) <->
   exists n rel st rm,
     lookup fs dir = Some n /\ rel <> [] /\ reachable n rel = true /\
     lookup fs (dir ++ rel) = Some (File st true rm) /\
     f = recordOf (dir ++ rel) st).
Proof.
  intros Hwf. unfold getAllFiles. split.
  - intros Hin. destruct (lookup fs dir) as [n|] eqn:Hl; [|contradiction].
    destruct (walk_sound n dir f (wfb_lookup _ _ _ Hwf Hl) Hin)
      as [rel [st [rm [Hne [Hr [Hlr Hf]]]]]].
    exists n, rel, st, rm. rewrite lookup_app, Hl. auto.
  - intros [n [rel [st [rm [Hl [Hne [Hr [Hlr Hf]]]]]]]].
    rewrite Hl. rewrite lookup_app, Hl in Hlr. subst f.
    now apply walk_complete with (rm := rm).
Qed.

(** X2. No path occurs twice in an inventory. *)
Theorem X2_getAllFiles_distinct_paths (fs : node) (dir : fpath) :
  wfb fs = true -> NoDup (map path (getAllFiles fs dir)).
Proof. apply getAllFiles_NoDup. Qed.

(** * Further properties of cleanEmptyDirs *)

Lemma rmdir_frame (fs fs' : node) (p : fpath) :
  wfb fs = true -> rmdir fs p = Some fs' ->
  lookup fs' p = None /\
  (forall q, is_file fs' q = is_file fs q /\ statAt fs' q = statAt fs q) /\
  (forall q, q <> p -> is_dir fs' q = is_dir fs q).
Proof.
  unfold rmdir. intros Hwf Hr.
  pose proof (remove_at_gone _ _ _ _ Hwf Hr) as Hgone.
  pose proof (remove_at_frame removable_dir p removable_dir_leaf fs fs')
    as Hfr.
  split; [exact Hgone|]. split.
  - intros q. destruct (list_eq_dec string_dec q p) as [->|Hne].
    + destruct (remove_at_ok _ _ _ _ Hr) as [c [Hl Hok]].
      unfold is_file, statAt. rewrite Hl, Hgone.
      destruct c as [| r [|e es] |]; simpl in Hok; try discriminate.
      now split.
    + specialize (Hfr q Hwf Hr Hne).
      split; [now apply shallow_is_file | now apply shallow_statAt].
  - intros q Hne. apply shallow_is_dir. now apply Hfr.
Qed.


Lemma prefix_parentDir (q dir : fpath) :
  (exists c, parentDir dir = q ++ c) -> exists c, dir = q ++ c.
Proof.
  intros [c E]. destruct dir as [|x dir'] eqn:Ed.
  - simpl in E. exists c. exact E.
  - rewrite <- Ed in *. assert (dir <> []) as Hne by (rewrite Ed; discriminate).
    rewrite (app_removelast_last EmptyString Hne).
    unfold parentDir in E. rewrite E. exists (c ++ [last dir EmptyString]).
    now rewrite app_assoc.
Qed.

Lemma cleanEmptyDirs_from_keeps (k : nat) :
  forall dir rootDir fs,
  wfb fs = true ->
  wfb (cleanEmptyDirs_from k dir rootDir fs) = true /\
  (forall q,
     is_file (cleanEmptyDirs_from k dir rootDir fs) q = is_file fs q /\
     statAt (cleanEmptyDirs_from k dir rootDir fs) q = statAt fs q) /\
  (forall q, lookup fs q = None ->
     lookup (cleanEmptyDirs_from k dir rootDir fs) q = None) /\
  (is_dir (cleanEmptyDirs_from k dir rootDir fs) rootDir = is_dir fs rootDir)
  /\
  (forall q, ~ (exists c, dir = q ++ c) ->
     is_dir (cleanEmptyDirs_from k dir rootDir fs) q = is_dir fs q).
Proof.
  induction k as [|k IH]; intros dir rootDir fs Hwf; simpl.
  - repeat split; auto.
  - destruct (fpath_eqb dir rootDir) eqn:Eroot; [repeat split; auto|].
    apply fpath_eqb_neq in Eroot.
    destruct (readdir fs dir) as [entries|]; [|repeat split; auto].
    destruct (List.length entries =? 0)%nat; [|repeat split; auto].
    destruct (rmdir fs dir) as [fs1|] eqn:Hr; [|repeat split; auto].
    destruct (rmdir_frame fs fs1 dir Hwf Hr) as [Hgone [Hfiles Hdirs]].
    assert (wfb fs1 = true) as Hwf1 by (eapply remove_at_wfb; eassumption).
    destruct (IH (parentDir dir) rootDir fs1 Hwf1)
      as [Hwf' [Hf' [Hg' [Hroot' Hd']]]].
    split; [exact Hwf'|]. split; [|split; [|split]].
    + intros q. destruct (Hf' q) as [E1 E2]. destruct (Hfiles q) as [E3 E4].
      split; congruence.
    + intros q Hq. apply Hg'.
      exact (remove_at_keeps_gone removable_dir dir fs fs1 q Hwf Hq Hr).
    + rewrite Hroot'. apply Hdirs. congruence.
    + intros q Hq. rewrite Hd'.
      * apply Hdirs. intros ->. apply Hq. exists []. now rewrite app_nil_r.
      * intros Hp. apply Hq. now apply prefix_parentDir.
Qed.

(** X4. Whatever directory it starts from, [cleanEmptyDirs] removes no
    file and changes none, and leaves in place every directory that is
    neither [dir] nor one of its ancestors. *)
Theorem X4_cleanEmptyDirs_keeps (dir rootDir : fpath) (fs : node) :
  wfb fs = true ->
  (forall q,
     is_file (cleanEmptyDirs dir rootDir fs) q = is_file fs q /\
     statAt (cleanEmptyDirs dir rootDir fs) q = statAt fs q) /\
  (forall q, ~ (exists c, dir = q ++ c) ->
     is_dir (cleanEmptyDirs dir rootDir fs) q = is_dir fs q).
Proof.
  intros Hwf. unfold cleanEmptyDirs.
  destruct (cleanEmptyDirs_from_keeps (S (List.length dir)) dir rootDir fs Hwf)
    as [_ [Hf [_ [_ Hd]]]].
  auto.
Qed.





(** * Further properties of the run *)

Lemma unlink_frame (fs fs' : node) (p : fpath) :
  wfb fs = true -> unlink fs p = Some fs' ->
  wfb fs' = true /\
  is_file fs' p = false /\
  (forall q, q <> p -> is_file fs' q = is_file fs q) /\
  (forall q, is_dir fs' q = is_dir fs q).
Proof.
  unfold unlink. intros Hwf Hu.
  pose proof (remove_at_frame unlinkable p unlinkable_leaf fs fs') as Hfr.
  pose proof (remove_at_gone _ _ _ _ Hwf Hu) as Hgone.
  split; [eapply remove_at_wfb; eassumption|].
  split; [unfold is_file; now rewrite Hgone|]. split.
  - intros q Hne. apply shallow_is_file. now apply Hfr.
  - intros q. destruct (list_eq_dec string_dec q p) as [->|Hne].
    + destruct (remove_at_ok _ _ _ _ Hu) as [c [Hl Hok]].
      unfold is_dir. rewrite Hl, Hgone.
      destruct c; simpl in Hok; try discriminate; reflexivity.
    + apply shallow_is_dir. now apply Hfr.
Qed.

Section LoopInvariant.

(** A relation between the file system and the report that every step of
    the two loops keeps is kept by the run. *)
Variable J : node -> CleanupResult -> Prop.

Hypothesis J_expired :
  forall fs r f fs', wfb fs = true -> J fs r ->
  unlink fs (path f) = Some fs' -> J fs' (recordExpired r f).

Hypothesis J_lru :
  forall fs r f fs', wfb fs = true -> J fs r ->
  unlink fs (path f) = Some fs' -> J fs' (recordLru r f).

Hypothesis J_error : forall fs r msg, J fs r -> J fs (recordError r msg).

Lemma ttlLoop_inv (config : CleanupConfig) (now : Z)
    (files : list CachedFile) :
  forall fs r rem fs' r' rem',
  wfb fs = true -> J fs r ->
  ttlLoop config now files fs r rem = (fs', r', rem') ->
  wfb fs' = true /\ J fs' r'.
Proof.
  induction files as [|f rest IH]; intros fs r rem fs' r' rem' Hwf HJ H;
    simpl in H.
  - inversion H; subst. auto.
  - destruct (now - modTime f >? ttlMs config).
    + unfold safeDelete in H.
      destruct (unlink fs (path f)) as [fs1|] eqn:Hu.
      * apply (IH _ _ _ _ _ _ (proj1 (unlink_frame _ _ _ Hwf Hu))
                 (J_expired _ _ _ _ Hwf HJ Hu) H).
      * apply (IH _ _ _ _ _ _ Hwf (J_error _ _ _ HJ) H).
    + apply (IH _ _ _ _ _ _ Hwf HJ H).
Qed.

Lemma lruLoop_inv (config : CleanupConfig) (files : list CachedFile) :
  forall fs r cur fs' r',
  wfb fs = true -> J fs r ->
  lruLoop config files fs r cur = (fs', r') ->
  wfb fs' = true /\ J fs' r'.
Proof.
  induction files as [|f rest IH]; intros fs r cur fs' r' Hwf HJ H;
    simpl in H.
  - inversion H; subst. auto.
  - destruct (cur <=? maxSizeBytes config); [inversion H; subst; auto|].
    unfold safeDelete in H.
    destruct (unlink fs (path f)) as [fs1|] eqn:Hu.
    + apply (IH _ _ _ _ _ (proj1 (unlink_frame _ _ _ Hwf Hu))
               (J_lru _ _ _ _ Hwf HJ Hu) H).
    + apply (IH _ _ _ _ _ Hwf (J_error _ _ _ HJ) H).
Qed.

Lemma runCleanup_inv (config : CleanupConfig) (now : Z) (fs : node) :
  wfb fs = true -> J fs emptyResult ->
  J (cleaned config now fs) (report config now fs).
Proof.
  unfold report, cleaned, runCleanup. intros Hwf HJ.
  destruct (List.length (getAllFiles fs (cacheDirectory config)) =? 0)%nat.
  - exact HJ.
  - destruct (ttlLoop config now (getAllFiles fs (cacheDirectory config)) fs
                emptyResult []) as [[fs1 r1] rem] eqn:E1.
    destruct (ttlLoop_inv _ _ _ _ _ _ _ _ _ Hwf HJ E1) as [Hwf1 HJ1].
    destruct (totalSize rem >? maxSizeBytes config).
    + destruct (lruLoop config (sortByAccess rem) fs1 r1 (totalSize rem))
        as [fs2 r2] eqn:E2.
      destruct (lruLoop_inv _ _ _ _ _ _ _ Hwf1 HJ1 E2) as [_ HJ2].
      rewrite cleanEmptyDirs_root. exact HJ2.
    + rewrite cleanEmptyDirs_root. exact HJ1.
Qed.

End LoopInvariant.

(** X7. The report is an exact account of the files the run removed: a
    path is a file after the run if and only if it was one before and is
    listed neither in [expiredFiles] nor in [lruFiles]. *)
Theorem X7_report_exact_account (config : CleanupConfig) (now : Z)
    (fs : node) :
  wfb fs = true ->
  forall q,
    is_file (cleaned config now fs) q = true <->
    is_file fs q = true /\
    ~ In q (expiredFiles (report config now fs)) /\
    ~ In q (lruFiles (report config now fs)).
Proof.
  intros Hwf.
  apply (runCleanup_inv
           (fun fs' r => forall q,
              is_file fs' q = true <->
              is_file fs q = true /\ ~ In q (expiredFiles r) /\
              ~ In q (lruFiles r))); try assumption.
  - intros fs1 r f fs2 Hwf1 HJ Hu q.
    destruct (unlink_frame _ _ _ Hwf1 Hu) as [_ [Hp [Hother _]]].
    simpl. rewrite in_app_iff. simpl.
    destruct (list_eq_dec string_dec q (path f)) as [->|Hne].
    + rewrite Hp. split; [discriminate|]. intros [_ [Hn _]].
      exfalso. apply Hn. right. now left.
    + rewrite (Hother q Hne), (HJ q). split.
      * intros [H1 [H2 H3]]. repeat split; try assumption.
        intros [H|[H|[]]]; [now apply H2 | congruence].
      * intros [H1 [H2 H3]]. repeat split; try assumption.
        intros H. apply H2. now left.
  - intros fs1 r f fs2 Hwf1 HJ Hu q.
    destruct (unlink_frame _ _ _ Hwf1 Hu) as [_ [Hp [Hother _]]].
    simpl. rewrite in_app_iff. simpl.
    destruct (list_eq_dec string_dec q (path f)) as [->|Hne].
    + rewrite Hp. split; [discriminate|]. intros [_ [_ Hn]].
      exfalso. apply Hn. right. now left.
    + rewrite (Hother q Hne), (HJ q). split.
      * intros [H1 [H2 H3]]. repeat split; try assumption.
        intros [H|[H|[]]]; [now apply H3 | congruence].
      * intros [H1 [H2 H3]]. repeat split; try assumption.
        intros H. apply H3. now left.
  - intros fs1 r msg HJ q. simpl. apply HJ.
  - intros q. simpl. tauto.
Qed.

(** X8. The run removes no directory and creates none: a path is a
    directory after the run exactly when it was one before.  In particular
    the cache root stays, and so does every sub-directory the run
    emptied. *)
Theorem X8_directories_untouched (config : CleanupConfig) (now : Z)
    (fs : node) :
  wfb fs = true ->
  forall q, is_dir (cleaned config now fs) q = is_dir fs q.
Proof.
  intros Hwf.
  apply (runCleanup_inv
           (fun fs' (_ : CleanupResult) =>
              forall q, is_dir fs' q = is_dir fs q)); try assumption.
  - intros fs1 r f fs2 Hwf1 HJ Hu q.
    destruct (unlink_frame _ _ _ Hwf1 Hu) as [_ [_ [_ Hd]]].
    now rewrite Hd.
  - intros fs1 r f fs2 Hwf1 HJ Hu q.
    destruct (unlink_frame _ _ _ Hwf1 Hu) as [_ [_ [_ Hd]]].
    now rewrite Hd.
  - auto.
  - reflexivity.
Qed.

Lemma nothing_listed_unchanged (config : CleanupConfig) (now : Z)
    (fs : node) :
  wfb fs = true ->
  expiredFiles (report config now fs) = [] ->
  lruFiles (report config now fs) = [] ->
  cleaned config now fs = fs.
Proof.
  intros Hwf.
  apply (runCleanup_inv
           (fun fs' r =>
              expiredFiles r = [] -> lruFiles r = [] -> fs' = fs));
    try assumption.
  - intros fs1 r f fs2 _ _ _ H. simpl in H.
    apply app_eq_nil in H. destruct H; discriminate.
  - intros fs1 r f fs2 _ _ _ _ H. simpl in H.
    apply app_eq_nil in H. destruct H; discriminate.
  - intros fs1 r msg HJ. simpl. exact HJ.
  - reflexivity.
Qed.

(** X11. A run whose report lists no deleted file returns the file system
    it was given, unchanged. *)
Theorem X11_nothing_listed_nothing_changed (config : CleanupConfig)
    (now : Z) (fs : node) :
  wfb fs = true ->
  expiredFiles (report config now fs) = [] ->
  lruFiles (report config now fs) = [] ->
  cleaned config now fs = fs.
Proof. apply nothing_listed_unchanged. Qed.

Lemma deleted_in_inventory (config : CleanupConfig) (now : Z) (fs : node)
    (f : CachedFile) :
  In f (ttlDeleted config now (deletable fs) (inventory config fs)
        ++ filter (fun f => deletable fs (path f)) (attempts config now fs))
  -> In f (inventory config fs).
Proof.
  intros H. apply in_app_or in H. destruct H as [H|H].
  - apply in_ttlDeleted in H. tauto.
  - apply filter_In in H. destruct H as [H _]. apply attempts_In in H.
    apply filter_In in H. tauto.
Qed.

Lemma deleted_NoDup (config : CleanupConfig) (now : Z) (fs : node) :
  wfb fs = true ->
  NoDup (map path
           (ttlDeleted config now (deletable fs) (inventory config fs)
            ++ filter (fun f => deletable fs (path f))
                 (attempts config now fs))).
Proof.
  intros Hwf. rewrite map_app. apply NoDup_app.
  - apply filter_NoDup_path. now apply getAllFiles_NoDup.
  - apply filter_NoDup_path, attempts_NoDup, Hwf.
  - intros p H1 H2. apply in_map_iff in H2. destruct H2 as [g [Eg Hg]].
    apply filter_In in Hg. destruct Hg as [Hg _]. apply attempts_In in Hg.
    apply filter_In in Hg. destruct Hg as [Hgi Hge].
    apply negb_true_iff in Hge. subst p.
    now apply (survivor_not_deleted config now fs g Hwf Hgi Hge).
Qed.

(** X9. What the run frees is what the cache loses: the total size of the
    inventory before the run is [bytesFreed] plus the total size of the
    inventory after it, and the number of files before is [filesDeleted]
    plus the number after. *)
Theorem X9_bytes_and_files_conserved (config : CleanupConfig) (now : Z)
    (fs : node) :
  wfb fs = true ->
  totalSize (inventory config fs) =
    bytesFreed (report config now fs)
    + totalSize (inventory config (cleaned config now fs)) /\
  Z.of_nat (List.length (inventory config fs)) =
    filesDeleted (report config now fs)
    + Z.of_nat (List.length (inventory config (cleaned config now fs))).
Proof.
  intros Hwf.
  destruct (cleaned_spec config now fs Hwf) as [_ Hscan _].
  unfold inventory at 2 4. rewrite Hscan, <- map_app.
  set (D := ttlDeleted config now (deletable fs) (inventory config fs)
            ++ filter (fun f => deletable fs (path f))
                 (attempts config now fs)).
  assert (Permutation (inventory config fs)
            (D ++ removePaths (map path D) (inventory config fs))) as Hperm.
  { apply removePaths_perm.
    - now apply getAllFiles_NoDup.
    - now apply deleted_NoDup.
    - intros f Hf. now apply (deleted_in_inventory config now fs). }
  rewrite (report_spec config now fs Hwf). simpl. split.
  - rewrite (totalSize_perm _ _ Hperm), totalSize_app. unfold D.
    rewrite totalSize_app. lia.
  - rewrite (Permutation_length Hperm), length_app. unfold D.
    rewrite length_app. lia.
Qed.

Lemma ttlLoop_none_expired (config : CleanupConfig) (now : Z)
    (files : list CachedFile) :
  forall fs r rem,
  (forall f, In f files -> now - modTime f <= ttlMs config) ->
  ttlLoop config now files fs r rem = (fs, r, rem ++ files).
Proof.
  induction files as [|f rest IH]; intros fs r rem H; simpl.
  - now rewrite app_nil_r.
  - assert ((now - modTime f >? ttlMs config) = false) as ->.
    { apply (expired_false config now f). apply H. now left. }
    rewrite IH by (intros g Hg; apply H; now right).
    now rewrite <- app_assoc.
Qed.

(** X10. On a cache that already satisfies the policy (no scanned file is
    older than [ttlMs] and the inventory fits in [maxSizeBytes]) the run
    does nothing: it returns the file system as it is and the report with
    no deletion and no error. *)
Theorem X10_compliant_cache_untouched (config : CleanupConfig) (now : Z)
    (fs : node) :
  (forall f, In f (inventory config fs) -> now - modTime f <= ttlMs config) ->
  totalSize (inventory config fs) <= maxSizeBytes config ->
  runCleanup config now fs =
    (fs, {| filesDeleted := 0; bytesFreed := 0; expiredFiles := [];
            lruFiles := []; errors := [] |}).
Proof.
  unfold inventory. intros Hage Hsize. unfold runCleanup.
  destruct (List.length (getAllFiles fs (cacheDirectory config)) =? 0)%nat;
    [reflexivity|].
  rewrite ttlLoop_none_expired by assumption. simpl app.
  assert ((totalSize (getAllFiles fs (cacheDirectory config))
             >? maxSizeBytes config) = false) as ->.
  { rewrite Z.gtb_ltb. apply Z.ltb_ge. exact Hsize. }
  now rewrite cleanEmptyDirs_root.
Qed.

Lemma rerun_lists_nothing (config : CleanupConfig) (now : Z) (fs : node) :
  wfb fs = true ->
  expiredFiles (report config now (cleaned config now fs)) = [] /\
  lruFiles (report config now (cleaned config now fs)) = [].
Proof.
  intros Hwf.
  destruct (cleaned_spec config now fs Hwf) as [Hwf1 Hscan Hdel].
  set (fs1 := cleaned config now fs) in *.
  assert (ttlDeleted config now (deletable fs1) (inventory config fs1) = [])
    as HD1.
  { apply filter_none. intros g Hg.
    destruct (expired config now g) eqn:He; [|reflexivity]. simpl.
    unfold inventory in Hg. rewrite Hscan in Hg. rewrite (Hdel g Hg).
    apply removePaths_In in Hg. destruct Hg as [Hg Hn].
    destruct (deletable fs (path g)) eqn:Hd; [|reflexivity].
    exfalso. apply Hn. apply in_or_app. left. apply in_map.
    apply in_ttlDeleted. auto. }
  assert (filter (fun f => deletable fs1 (path f)) (attempts config now fs1)
          = []) as HD2.
  { pose proof (cleaned_survivors config now fs Hwf) as HS. fold fs1 in HS.
    destruct (Z_le_gt_dec
                (totalSize (ttlSurvivors config now (inventory config fs1)))
                (maxSizeBytes config)) as [Hle|Hgt].
    - unfold attempts. now rewrite lruAttempts_within.
    - apply filter_none. intros g Hg. apply attempts_In in Hg.
      assert (In g (inventory config fs1)) as Hg1.
      { unfold ttlSurvivors in Hg. apply filter_In in Hg. tauto. }
      unfold inventory in HS, Hgt, Hg, Hg1. rewrite HS in Hgt, Hg.
      rewrite Hscan in Hg1. rewrite (Hdel g Hg1).
      now destruct (over_limit_all_refused config now fs Hwf Hgt g Hg). }
  rewrite report_spec by assumption. rewrite HD1, HD2. simpl. auto.
Qed.

(** X12. Running the cleanup twice, with the same policy and clock, leaves
    the file system the first run left. *)
Theorem X12_second_run_changes_nothing (config : CleanupConfig) (now : Z)
    (fs : node) :
  wfb fs = true ->
  cleaned config now (cleaned config now fs) = cleaned config now fs.
Proof.
  intros Hwf.
  destruct (cleaned_spec config now fs Hwf) as [Hwf1 _ _].
  destruct (rerun_lists_nothing config now fs Hwf) as [H1 H2].
  now apply nothing_listed_unchanged.
Qed.



Lemma sorted_app_le (l1 l2 : list CachedFile) :
  StronglySorted accessLe (l1 ++ l2) ->
  forall a b, In a l1 -> In b l2 -> accessTime a <= accessTime b.
Proof.
  induction l1 as [|x l1 IH]; simpl; intros Hs a b Ha Hb; [contradiction|].
  inversion Hs as [|? ? Hs' Hx]; subst. destruct Ha as [->|Ha].
  - rewrite Forall_forall in Hx. apply (Hx b). apply in_or_app. now right.
  - now apply IH.
Qed.

(** X14. When no deletion failed, step 2 evicted the least recently used:
    every file it deleted was last accessed no later than every file left
    in the cache. *)
Theorem X14_lru_victims_least_recent (config : CleanupConfig) (now : Z)
    (fs : node) :
  wfb fs = true -> errors (report config now fs) = [] ->
  forall f g,
    In f (inventory config fs) ->
    In (path f) (lruFiles (report config now fs)) ->
    In g (getAllFiles (cleaned config now fs) (cacheDirectory config)) ->
    accessTime f <= accessTime g.
Proof.
  intros Hwf Herr f g Hf Hp Hg.
  destruct (size_or_exhausted config now fs Hwf Herr) as [Hrest _].
  rewrite Hrest in Hg. apply removePaths_In in Hg. destruct Hg as [HgS Hgn].
  rewrite report_errors in Herr by assumption.
  apply app_eq_nil in Herr. destruct Herr as [_ HF2].
  apply map_eq_nil in HF2.
  rewrite report_spec in Hp by assumption. simpl in Hp.
  apply in_map_iff in Hp. destruct Hp as [f' [Ef Hf']].
  assert (f' = f) as ->.
  { apply (NoDup_path_inj (inventory config fs)); try assumption.
    - now apply getAllFiles_NoDup.
    - apply (deleted_in_inventory config now fs). apply in_or_app.
      now right. }
  apply filter_In in Hf'. destruct Hf' as [HfA _].
  set (S := ttlSurvivors config now (inventory config fs)) in *.
  destruct (lruAttempts_prefix (deletable fs) (maxSizeBytes config)
              (sortByAccess S) (totalSize S)) as [rest E].
  fold (attempts config now fs) in E.
  pose proof (sortByAccess_sorted S) as Hs. rewrite E in Hs.
  apply (sorted_app_le _ _ Hs); [assumption|].
  apply (proj2 (sortByAccess_In S g)) in HgS. rewrite E in HgS.
  apply in_app_or in HgS. destruct HgS as [HgA|Hgr]; [|assumption].
  exfalso. apply Hgn. apply in_map. apply filter_In. split; [assumption|].
  pose proof (filter_nil_none _ _ g HF2 HgA) as Hb. simpl in Hb.
  now apply negb_false_iff in Hb.
Qed.

(** * Further properties of the statistics *)

Lemma firstOldest_least (l : list CachedFile) (o : CachedFile) :
  firstOldest l o -> In o l /\ forall g, In g l -> modTime o <= modTime g.
Proof.
  intros [l1 [l2 [E [H1 H2]]]]. subst l. split.
  - apply in_or_app. right. now left.
  - intros g Hg. apply in_app_or in Hg. destruct Hg as [Hg|[<-|Hg]].
    + specialize (H1 g Hg). lia.
    + lia.
    + now apply H2.
Qed.

Lemma firstNewest_greatest (l : list CachedFile) (n : CachedFile) :
  firstNewest l n -> In n l /\ forall g, In g l -> modTime g <= modTime n.
Proof.
  intros [l1 [l2 [E [H1 H2]]]]. subst l. split.
  - apply in_or_app. right. now left.
  - intros g Hg. apply in_app_or in Hg. destruct Hg as [Hg|[<-|Hg]].
    + specialize (H1 g Hg). lia.
    + lia.
    + now apply H2.
Qed.

Lemma stats_extremes (now : Z) (fs : node) (dir : fpath) :
  getAllFiles fs dir <> [] ->
  exists o n,
    firstOldest (getAllFiles fs dir) o /\
    firstNewest (getAllFiles fs dir) n /\
    getCacheStats now fs dir =
      {| totalFiles := Z.of_nat (List.length (getAllFiles fs dir));
         totalSizeBytes := totalSize (getAllFiles fs dir);
         totalSizeGb := roundGb (totalSize (getAllFiles fs dir));
         oldestFile :=
           Some {| fa_path := path o; fa_age := now - modTime o |};
         newestFile :=
           Some {| fa_path := path n; fa_age := now - modTime n |} |}.
Proof.
  intros Hne. unfold getCacheStats.
  destruct (getAllFiles fs dir) as [|first tl]; [congruence|].
  assert (firstOldest [first] first) as Ho.
  { exists [], []. repeat split; intros g []. }
  assert (firstNewest [first] first) as Hn.
  { exists [], []. repeat split; intros g []. }
  destruct (extremesLoop_spec tl [first] first first Ho Hn) as [H1 H2].
  simpl in H1, H2. simpl extremesLoop.
  rewrite Z.ltb_irrefl, Z.gtb_ltb, Z.ltb_irrefl.
  destruct (extremesLoop tl first first) as [o n]. simpl in *.
  exists o, n. auto.
Qed.

(** X16. On a non-empty inventory the statistics count every scanned file
    and add up every size, the oldest and the newest file are scanned
    files, and the age of every scanned file lies between the age reported
    for the newest and the age reported for the oldest. *)
Theorem X16_stats_bound_every_file (now : Z) (fs : node) (dir : fpath)
    (f : CachedFile) :
  In f (getAllFiles fs dir) ->
  exists o n,
    oldestFile (getCacheStats now fs dir) = Some o /\
    newestFile (getCacheStats now fs dir) = Some n /\
    In (fa_path o) (map path (getAllFiles fs dir)) /\
    In (fa_path n) (map path (getAllFiles fs dir)) /\
    fa_age n <= now - modTime f <= fa_age o /\
    totalFiles (getCacheStats now fs dir) =
      Z.of_nat (List.length (getAllFiles fs dir)) /\
    totalSizeBytes (getCacheStats now fs dir) =
      totalSize (getAllFiles fs dir).
Proof.
  intros Hin.
  assert (getAllFiles fs dir <> []) as Hne
    by (intros E; rewrite E in Hin; contradiction).
  destruct (stats_extremes now fs dir Hne) as [o [n [Ho [Hn E]]]].
  rewrite E. simpl.
  destruct (firstOldest_least _ _ Ho) as [Hoin Hole].
  destruct (firstNewest_greatest _ _ Hn) as [Hnin Hnge].
  eexists. eexists. split; [reflexivity|]. split; [reflexivity|]. simpl.
  split; [now apply in_map|]. split; [now apply in_map|].
  specialize (Hole f Hin). specialize (Hnge f Hin).
  repeat split; lia.
Qed.

(** X15. The statistics of a cache just cleaned without a failed deletion
    agree with the policy: the total size is within [maxSizeBytes] unless
    no file is left, and the oldest file, if any, is no older than
    [ttlMs]. *)
Theorem X15_stats_after_clean_run (config : CleanupConfig) (now : Z)
    (fs : node) :
  wfb fs = true -> errors (report config now fs) = [] ->
  let stats :=
    getCacheStats now (cleaned config now fs) (cacheDirectory config) in
  (totalSizeBytes stats <= maxSizeBytes config \/ totalFiles stats = 0) /\
  (forall o, oldestFile stats = Some o -> fa_age o <= ttlMs config).
Proof.
  intros Hwf Herr stats. unfold stats.
  destruct (size_or_exhausted config now fs Hwf Herr) as [Hrest Hor].
  destruct (getAllFiles (cleaned config now fs) (cacheDirectory config))
    as [|g rest] eqn:Hscan.
  - unfold getCacheStats. rewrite Hscan. simpl. split; [now right|].
    discriminate.
  - assert (getAllFiles (cleaned config now fs) (cacheDirectory config)
            <> []) as Hne by (rewrite Hscan; discriminate).
    destruct (stats_extremes now _ _ Hne) as [o [n [Ho [_ E]]]].
    rewrite E. simpl. rewrite Hscan. split.
    + left. destruct Hor as [Hle|Hnil]; [exact Hle | discriminate].
    + intros a Ha. inversion Ha; subst a. simpl.
      destruct (firstOldest_least _ _ Ho) as [Hoin _].
      rewrite Hscan, Hrest in Hoin.
      apply removePaths_In in Hoin. destruct Hoin as [HoS _].
      apply filter_In in HoS. destruct HoS as [_ He].
      apply negb_true_iff in He. now apply expired_false in He.
Qed.

(** * Properties of formatDuration and formatBytes *)

Ltac dlia := Z.div_mod_to_equations; lia.

Lemma gtb_true (a b : Z) : b < a -> (a >? b) = true.
Proof. intros H. rewrite Z.gtb_ltb. now apply Z.ltb_lt. Qed.

Lemma gtb_false (a b : Z) : a <= b -> (a >? b) = false.
Proof. intros H. rewrite Z.gtb_ltb. now apply Z.ltb_ge. Qed.



Lemma formatDuration_hours (ms : Z) :
  3600000 <= ms < 86400000 ->
  formatDuration ms =
    (numberToString (ms / 3600000) ++ " hour"
     ++ (if ms / 3600000 >? 1 then "s" else "")
     ++ ", " ++ numberToString ((ms / 60000) mod 60) ++ " minute"
     ++ (if Z.eqb ((ms / 60000) mod 60) 1 then "" else "s"))%string.
Proof.
  intros H. unfold formatDuration. cbv zeta.
  rewrite (gtb_false (ms / 1000 / 60 / 60 / 24) 0) by dlia.
  rewrite (gtb_true (ms / 1000 / 60 / 60) 0) by dlia.
  rewrite Z.rem_mod_nonneg by dlia.
  replace (ms / 1000 / 60 / 60) with (ms / 3600000) by dlia.
  replace (ms / 1000 / 60) with (ms / 60000) by dlia.
  destruct ((ms / 60000) mod 60 =? 1); reflexivity.
Qed.



(** X18. Between one hour and one day [formatDuration] shows whole hours
    and whole minutes and drops the rest: the duration is at least what is
    shown and less than one minute more. *)
Theorem X18_formatDuration_hours_and_minutes (ms : Z) :
  3600000 <= ms < 86400000 ->
  exists h m,
    1 <= h < 24 /\ 0 <= m < 60 /\
    h * 3600000 + m * 60000 <= ms < h * 3600000 + (m + 1) * 60000 /\
    formatDuration ms =
      (numberToString h ++ " hour" ++ (if Z.eqb h 1 then "" else "s")
       ++ ", " ++ numberToString m ++ " minute"
       ++ (if Z.eqb m 1 then "" else "s"))%string.
Proof.
  intros H. exists (ms / 3600000), ((ms / 60000) mod 60).
  split; [dlia|]. split; [dlia|]. split; [dlia|].
  rewrite formatDuration_hours by assumption.
  assert (1 <= ms / 3600000) as Hh by dlia.
  destruct (Z.eqb_spec (ms / 3600000) 1) as [E|E].
  - rewrite E. reflexivity.
  - rewrite gtb_true by lia. reflexivity.
Qed.







(** * Properties of the media utilities *)

Lemma property_None {V : Type} (table : list (string * V)) (key : string) :
  property table key = None <-> ~ In key (map fst table).
Proof.
  induction table as [|[k v] tl IH]; simpl.
  - tauto.
  - destruct (String.eqb_spec k key) as [E|E].
    + split; [discriminate|]. intros H. exfalso. apply H. now left.
    + rewrite IH. split.
      * intros H [H1|H1]; [congruence | now apply H].
      * intros H H1. apply H. now right.
Qed.

(** The two tables, key by key: a key has a media type exactly when it
    has a MIME type; the media type is never [Other], the MIME type is
    neither empty nor the default, and it starts with the family of the
    media type. *)
Lemma tables_agree (key : string) :
  match property EXTENSION_TO_TYPE key, property MIME_TYPES key with
  | Some t, Some m =>
      t <> Other /\ m <> ""%string /\
      m <> "application/octet-stream"%string /\
      String.prefix (mimeFamily t) m = true
  | None, None => True
  | _, _ => False
  end.
Proof.
  cbv [property EXTENSION_TO_TYPE MIME_TYPES].
  repeat (destruct (String.eqb _ key);
          [repeat split; try discriminate; reflexivity|]).
  exact I.
Qed.

(** X21. The three lookups agree on every input: an extension is
    supported exactly when its normalised form is one of
    [SUPPORTED_EXTENSIONS], exactly when its media type is not [Other],
    and exactly when its MIME type is not the default
    [application/octet-stream]. *)
Theorem X21_supported_iff_known (toLowerCase : string -> string)
    (extension : string) :
  let ext :=
    if startsWithDot (toLowerCase extension) then toLowerCase extension
    else ("." ++ toLowerCase extension)%string in
  (isSupportedExtension toLowerCase extension = true <->
   In ext SUPPORTED_EXTENSIONS) /\
  (isSupportedExtension toLowerCase extension = true <->
   getMediaType toLowerCase extension <> Other) /\
  (isSupportedExtension toLowerCase extension = true <->
   getMimeType toLowerCase extension <> "application/octet-stream"%string).
Proof.
  intros ext. unfold isSupportedExtension, getMediaType, getMimeType.
  fold ext. pose proof (tables_agree ext) as H.
  pose proof (property_None EXTENSION_TO_TYPE ext) as Hn.
  fold SUPPORTED_EXTENSIONS in Hn.
  destruct (property EXTENSION_TO_TYPE ext) as [t|];
    destruct (property MIME_TYPES ext) as [m|]; try contradiction.
  - destruct H as [Ht [Hm [Hd _]]].
    assert (String.eqb m "" = false) as ->
      by (now apply String.eqb_neq).
    repeat split; auto.
    intros _. destruct (in_dec string_dec ext SUPPORTED_EXTENSIONS) as [Hi|Hi];
      [assumption|].
    apply Hn in Hi. discriminate.
  - repeat split; try discriminate; try congruence.
    intros Hi. exfalso. now apply (proj1 Hn).
Qed.

(** X22. The MIME type always belongs to the family of the media type:
    [video/] for a video, [audio/] for audio, [image/] for an image or a
    GIF, [application/] for a document; an extension of media type
    [Other] gets the default MIME type. *)
Theorem X22_mime_family_matches_media_type (toLowerCase : string -> string)
    (extension : string) :
  String.prefix (mimeFamily (getMediaType toLowerCase extension))
    (getMimeType toLowerCase extension) = true /\
  (getMediaType toLowerCase extension = Other ->
   getMimeType toLowerCase extension = "application/octet-stream"%string).
Proof.
  unfold getMediaType, getMimeType.
  set (ext := if startsWithDot (toLowerCase extension)
              then toLowerCase extension
              else ("." ++ toLowerCase extension)%string).
  pose proof (tables_agree ext) as H.
  destruct (property EXTENSION_TO_TYPE ext) as [t|];
    destruct (property MIME_TYPES ext) as [m|]; try contradiction.
  - destruct H as [Ht [Hm [Hd Hp]]].
    assert (String.eqb m "" = false) as ->
      by (now apply String.eqb_neq).
    split; [exact Hp | congruence].
  - split; reflexivity.
Qed.

Lemma lastIndexOfDot_ge (s : string) : -1 <= lastIndexOfDot s.
Proof.
  induction s as [|a s IH]; simpl; [lia|].
  destruct (Z.leb_spec 0 (lastIndexOfDot s)); [lia|].
  destruct (Ascii.eqb a "."); lia.
Qed.

Lemma lastIndexOfDot_noDot (s : string) :
  lastIndexOfDot s = -1 -> noDot s.
Proof.
  induction s as [|a s IH]; simpl; intros H n.
  - destruct n; discriminate.
  - destruct (Z.leb_spec 0 (lastIndexOfDot s)) as [Hr|Hr]; [lia|].
    destruct (Ascii.eqb_spec a ".") as [E|E]; [lia|].
    destruct n as [|n]; simpl.
    + congruence.
    + apply IH. pose proof (lastIndexOfDot_ge s). lia.
Qed.

Lemma substring_full (s : string) : String.substring 0 (String.length s) s = s.
Proof. induction s as [|a s IH]; simpl; congruence. Qed.

Lemma slices_split (s : string) :
  0 <= lastIndexOfDot s ->
  exists rest,
    sliceFrom (lastIndexOfDot s) s = String "." rest /\
    lastIndexOfDot rest = -1 /\
    s = (sliceTo (lastIndexOfDot s) s ++ String "." rest)%string.
Proof.
  induction s as [|a s IH]; simpl; intros H; [lia|].
  destruct (Z.leb_spec 0 (lastIndexOfDot s)) as [Hr|Hr].
  - destruct (IH Hr) as [rest [E1 [E2 E3]]]. exists rest.
    unfold sliceFrom, sliceTo in *.
    replace (Z.to_nat (lastIndexOfDot s + 1))
      with (S (Z.to_nat (lastIndexOfDot s))) by lia.
    simpl. split; [exact E1|]. split; [exact E2|]. now rewrite <- E3.
  - destruct (Ascii.eqb_spec a ".") as [E|E]; [|lia].
    subst a. exists s. unfold sliceFrom, sliceTo. simpl.
    rewrite ?Nat.sub_0_r, substring_full. split; [reflexivity|].
    split; [|reflexivity]. pose proof (lastIndexOfDot_ge s). lia.
Qed.

(** X23. [getBasename] and [getExtension] cut a file name at its last
    dot.  Without a dot the base name is the whole name and the extension
    is empty; otherwise the name is the base name followed by a dot and a
    rest without dot, and the extension is that dot and rest in lower
    case. *)
Theorem X23_basename_extension_split (toLowerCase : string -> string)
    (filename : string) :
  (noDot filename /\
   getBasename filename = filename /\
   getExtension toLowerCase filename = ""%string) \/
  (exists rest,
     noDot rest /\
     filename = (getBasename filename ++ String "." rest)%string /\
     getExtension toLowerCase filename = toLowerCase (String "." rest)).
Proof.
  unfold getBasename, getExtension.
  pose proof (lastIndexOfDot_ge filename) as Hge.
  destruct (Z.eqb_spec (lastIndexOfDot filename) (-1)) as [E|E].
  - left. split; [now apply lastIndexOfDot_noDot | now split].
  - right. destruct (slices_split filename) as [rest [E1 [E2 E3]]]; [lia|].
    exists rest. split; [now apply lastIndexOfDot_noDot|].
    split; [exact E3 | now rewrite E1].
Qed.

(** * The further properties on the sample caches *)

Lemma X1_getAllFiles_exact_witness :
  wfb Sample.fsCAB = true /\
  (In (Sample.record (Sample.sub ++ ["B"%string]) 100 1 2)
     (getAllFiles Sample.fsCAB Sample.root) <->
   exists n rel st rm,
     lookup Sample.fsCAB Sample.root = Some n /\ rel <> [] /\
     reachable n rel = true /\
     lookup Sample.fsCAB (Sample.root ++ rel) = Some (File st true rm) /\
     Sample.record (Sample.sub ++ ["B"%string]) 100 1 2
       = recordOf (Sample.root ++ rel) st).
Proof.
  split; [reflexivity|].
  exact (X1_getAllFiles_exact Sample.fsCAB Sample.root _ eq_refl).
Defined.

Lemma X2_getAllFiles_distinct_paths_witness :
  wfb Sample.fsLocked = true /\
  NoDup (map path (getAllFiles Sample.fsLocked Sample.root)).
Proof.
  split; [reflexivity|].
  exact (X2_getAllFiles_distinct_paths Sample.fsLocked Sample.root eq_refl).
Defined.

Lemma X3_safeDelete_frame_witness :
  wfb Sample.fsAB = true /\
  lookup (fst (safeDelete Sample.fsAB (Sample.root ++ ["A"%string])))
    (Sample.root ++ ["A"%string]) = None.
Proof.
  split; [reflexivity|].
  destruct (X3_safeDelete_frame Sample.fsAB
              (fst (safeDelete Sample.fsAB (Sample.root ++ ["A"%string])))
              (Sample.root ++ ["A"%string])
              (snd (safeDelete Sample.fsAB (Sample.root ++ ["A"%string])))
              eq_refl (surjective_pairing _)) as [H _].
  destruct H as [H _]; [reflexivity|].
  exact H.
Defined.

Lemma X4_cleanEmptyDirs_keeps_witness :
  wfb Sample.fsEmptySub = true /\
  is_file (cleanEmptyDirs Sample.sub Sample.root Sample.fsEmptySub)
    (Sample.root ++ ["keep"%string])
  = is_file Sample.fsEmptySub (Sample.root ++ ["keep"%string]).
Proof.
  split; [reflexivity|].
  destruct (X4_cleanEmptyDirs_keeps Sample.sub Sample.root Sample.fsEmptySub
              eq_refl) as [H _].
  destruct (H (Sample.root ++ ["keep"%string])) as [H1 _].
  exact H1.
Defined.




Lemma X7_report_exact_account_witness :
  wfb Sample.fsAB = true /\
  (is_file (cleaned Sample.policyAB Sample.now Sample.fsAB)
     (Sample.root ++ ["B"%string]) = true <->
   is_file Sample.fsAB (Sample.root ++ ["B"%string]) = true /\
   ~ In (Sample.root ++ ["B"%string])
       (expiredFiles (report Sample.policyAB Sample.now Sample.fsAB)) /\
   ~ In (Sample.root ++ ["B"%string])
       (lruFiles (report Sample.policyAB Sample.now Sample.fsAB))).
Proof.
  split; [reflexivity|].
  exact (X7_report_exact_account Sample.policyAB Sample.now Sample.fsAB
           eq_refl (Sample.root ++ ["B"%string])).
Defined.

Lemma X8_directories_untouched_witness :
  wfb Sample.fsSub = true /\
  is_dir (cleaned Sample.policyAB Sample.now Sample.fsSub) Sample.sub
    = is_dir Sample.fsSub Sample.sub.
Proof.
  split; [reflexivity|].
  exact (X8_directories_untouched Sample.policyAB Sample.now Sample.fsSub
           eq_refl Sample.sub).
Defined.

Lemma X9_bytes_and_files_conserved_witness :
  wfb Sample.fsLocked = true /\
  totalSize (inventory Sample.policyLocked Sample.fsLocked) =
    bytesFreed (report Sample.policyLocked Sample.now Sample.fsLocked)
    + totalSize
        (inventory Sample.policyLocked
           (cleaned Sample.policyLocked Sample.now Sample.fsLocked)).
Proof.
  split; [reflexivity|].
  exact (proj1 (X9_bytes_and_files_conserved Sample.policyLocked Sample.now
                  Sample.fsLocked eq_refl)).
Defined.

Lemma X10_compliant_cache_untouched_witness :
  totalSize (inventory Sample.policyLoose Sample.fsCAB)
    <= maxSizeBytes Sample.policyLoose /\
  runCleanup Sample.policyLoose Sample.now Sample.fsCAB =
    (Sample.fsCAB,
     {| filesDeleted := 0; bytesFreed := 0; expiredFiles := [];
        lruFiles := []; errors := [] |}).
Proof.
  assert (totalSize (inventory Sample.policyLoose Sample.fsCAB)
            <= maxSizeBytes Sample.policyLoose) as Hsize
    by (vm_compute; discriminate).
  split; [exact Hsize|].
  refine (X10_compliant_cache_untouched Sample.policyLoose Sample.now
            Sample.fsCAB _ Hsize).
  intros f Hf. vm_compute in Hf.
  destruct Hf as [<-|[<-|[<-|[]]]]; vm_compute; discriminate.
Defined.

Lemma X11_nothing_listed_nothing_changed_witness :
  wfb Sample.fsCAB = true /\
  expiredFiles (report Sample.policyLoose Sample.now Sample.fsCAB) = [] /\
  lruFiles (report Sample.policyLoose Sample.now Sample.fsCAB) = [] /\
  cleaned Sample.policyLoose Sample.now Sample.fsCAB = Sample.fsCAB.
Proof.
  split; [reflexivity|]. split; [reflexivity|]. split; [reflexivity|].
  exact (X11_nothing_listed_nothing_changed Sample.policyLoose Sample.now
           Sample.fsCAB eq_refl eq_refl eq_refl).
Defined.

Lemma X12_second_run_changes_nothing_witness :
  wfb Sample.fsLocked = true /\
  cleaned Sample.policyLocked Sample.now
    (cleaned Sample.policyLocked Sample.now Sample.fsLocked)
  = cleaned Sample.policyLocked Sample.now Sample.fsLocked.
Proof.
  split; [reflexivity|].
  exact (X12_second_run_changes_nothing Sample.policyLocked Sample.now
           Sample.fsLocked eq_refl).
Defined.


Lemma X14_lru_victims_least_recent_witness :
  wfb Sample.fsCAB = true /\
  errors (report Sample.policyCAB Sample.now Sample.fsCAB) = [] /\
  accessTime (Sample.record (Sample.root ++ ["C"%string]) 100 1 9)
    <= accessTime (Sample.record (Sample.sub ++ ["B"%string]) 100 1 2).
Proof.
  split; [reflexivity|]. split; [reflexivity|].
  refine (X14_lru_victims_least_recent Sample.policyCAB Sample.now
            Sample.fsCAB eq_refl eq_refl _ _ _ _ _).
  - right; right; left; reflexivity.
  - left; reflexivity.
  - left; reflexivity.
Defined.

Lemma X15_stats_after_clean_run_witness :
  wfb Sample.fsCAB = true /\
  errors (report Sample.policyCAB Sample.now Sample.fsCAB) = [] /\
  (totalSizeBytes
     (getCacheStats Sample.now
        (cleaned Sample.policyCAB Sample.now Sample.fsCAB)
        (cacheDirectory Sample.policyCAB))
     <= maxSizeBytes Sample.policyCAB \/
   totalFiles
     (getCacheStats Sample.now
        (cleaned Sample.policyCAB Sample.now Sample.fsCAB)
        (cacheDirectory Sample.policyCAB)) = 0).
Proof.
  split; [reflexivity|]. split; [reflexivity|].
  exact (proj1 (X15_stats_after_clean_run Sample.policyCAB Sample.now
                  Sample.fsCAB eq_refl eq_refl)).
Defined.

Lemma X16_stats_bound_every_file_witness :
  exists o n,
    oldestFile (getCacheStats Sample.now Sample.fsLocked Sample.root)
      = Some o /\
    newestFile (getCacheStats Sample.now Sample.fsLocked Sample.root)
      = Some n /\
    In (fa_path o) (map path (getAllFiles Sample.fsLocked Sample.root)) /\
    In (fa_path n) (map path (getAllFiles Sample.fsLocked Sample.root)) /\
    fa_age n
      <= Sample.now
         - modTime (Sample.record (Sample.root ++ ["C"%string]) 100 1 9)
      <= fa_age o /\
    totalFiles (getCacheStats Sample.now Sample.fsLocked Sample.root) =
      Z.of_nat (List.length (getAllFiles Sample.fsLocked Sample.root)) /\
    totalSizeBytes (getCacheStats Sample.now Sample.fsLocked Sample.root) =
      totalSize (getAllFiles Sample.fsLocked Sample.root).
Proof.
  refine (X16_stats_bound_every_file Sample.now Sample.fsLocked Sample.root
            (Sample.record (Sample.root ++ ["C"%string]) 100 1 9) _).
  right; right; right; left; reflexivity.
Defined.

Lemma X18_formatDuration_hours_and_minutes_witness :
  exists h m,
    1 <= h < 24 /\ 0 <= m < 60 /\
    h * 3600000 + m * 60000 <= 5400000 < h * 3600000 + (m + 1) * 60000 /\
    formatDuration 5400000 =
      (numberToString h ++ " hour" ++ (if Z.eqb h 1 then "" else "s")
       ++ ", " ++ numberToString m ++ " minute"
       ++ (if Z.eqb m 1 then "" else "s"))%string.
Proof.
  refine (X18_formatDuration_hours_and_minutes 5400000 _). lia.
Defined.


